(** * X-HEEP flash bring-up applications: embedding and verified properties

    Two firmware applications are embedded here:

    - [sw/applications/example_spi_host_quadIO/main.c]: Fast Read Quad I/O
      through the SPI host, completion by interrupt;
    - [sw/applications/bsp_flash_profiling/main.c]: timed write / read-back
      of the flash for every length 1..1024, with word-wise verification.

    C integers are [Z] with the wrap-around of their width written out;
    the target is a 32-bit little-endian RISC-V core. *)

From Stdlib Require Import ZArith List Bool Lia.
Import ListNotations.

Local Open Scope Z_scope.

(** ** Machine integers *)

Module CInt.

(** Conversion to [uint32_t]. *)
Definition u32 (x : Z) : Z := x mod 2 ^ 32.

(** Conversion to [uint16_t]. *)
Definition u16 (x : Z) : Z := x mod 2 ^ 16.

(** Conversion to [uint64_t]. *)
Definition u64 (x : Z) : Z := x mod 2 ^ 64.

(** In-memory representation of a [uint32_t] on the little-endian
    target: the byte at offset 0 is the least significant one. *)
Definition bytes_of_u32 (w : Z) : list Z :=
  [ w mod 256; (w / 2 ^ 8) mod 256; (w / 2 ^ 16) mod 256; (w / 2 ^ 24) mod 256 ].

Definition u32_of_bytes (bs : list Z) : Z :=
  fold_right (fun b acc => b + 256 * acc) 0 bs.

(** [memcpy(&dst, &src, n)] between two [uint32_t] objects, [n <= 4]:
    the first [n] bytes of [dst] are replaced by those of [src]. *)
Definition memcpy_u32 (dst src : Z) (n : nat) : Z :=
  u32_of_bytes (firstn n (bytes_of_u32 src) ++ skipn n (bytes_of_u32 dst)).

(** [buf[j]] for a [uint32_t *buf]; every index used by the two
    applications stays inside its array. *)
Definition word_at (buf : list Z) (j : Z) : Z := nth (Z.to_nat j) buf 0.

(** [EXIT_SUCCESS] and [EXIT_FAILURE] of [stdlib.h]. *)
Definition EXIT_SUCCESS : Z := 0.
Definition EXIT_FAILURE : Z := 1.

End CInt.

(** ** The completion signal of the Quad I/O example

    The wait loop of [main] (lines 264-271) runs against the interrupt
    handler [fic_irq_spi].  Both are embedded as steps of one machine:
    a schedule chooses at each step whether the main program advances by
    one statement, the SPI host raises its interrupt condition, or the
    core takes the interrupt, which runs the whole handler (a trap masks
    further interrupts until the handler returns). *)

Module Completion.

(** Where the main program stands. *)
Inductive pc_t : Type :=
| PcWhile     (* about to test [spi_intr_flag == 0] of the [while] *)
| PcClear     (* about to run [CSR_CLEAR_BITS(CSR_REG_MSTATUS, 0x8)] *)
| PcIf        (* about to test [spi_intr_flag == 0] of the [if] *)
| PcWfi       (* inside [wait_for_interrupt()]: the core is suspended *)
| PcSet       (* about to run [CSR_SET_BITS(CSR_REG_MSTATUS, 0x8)] *)
| PcExit.     (* past the loop *)

(** What the main program and the handler did, in order. *)
Inductive action : Type :=
| ATestWhile (flag : Z)
| AClearMstatusMie
| ATestIf (flag : Z)
| ASuspend
| AWake
| ASetMstatusMie
| AHandlerDisableEvt
| AHandlerDisableRxwm
| AHandlerSetFlag.

Record machine : Type := {
  pc : pc_t;
  mstatus_mie : bool;        (* bit 3 of [mstatus] *)
  spi_intr_flag : Z;         (* [volatile int8_t spi_intr_flag] *)
  evt_intr : bool;           (* event interrupt enabled in the host *)
  rxwm_intr : bool;          (* RX watermark interrupt enabled *)
  irq_raised : bool;         (* the host's event / watermark condition *)
  log : list action
}.

Definition with_log (a : list action) (m : machine) : machine :=
  {| pc := pc m; mstatus_mie := mstatus_mie m;
     spi_intr_flag := spi_intr_flag m; evt_intr := evt_intr m;
     rxwm_intr := rxwm_intr m; irq_raised := irq_raised m;
     log := log m ++ a |}.

Definition goto (p : pc_t) (m : machine) : machine :=
  {| pc := p; mstatus_mie := mstatus_mie m;
     spi_intr_flag := spi_intr_flag m; evt_intr := evt_intr m;
     rxwm_intr := rxwm_intr m; irq_raised := irq_raised m;
     log := log m |}.

Definition set_mstatus_mie (b : bool) (m : machine) : machine :=
  {| pc := pc m; mstatus_mie := b;
     spi_intr_flag := spi_intr_flag m; evt_intr := evt_intr m;
     rxwm_intr := rxwm_intr m; irq_raised := irq_raised m;
     log := log m |}.

(** Modelled from the spec: [spi_enable_evt_intr(&spi_host, en)] of the
    SPI host driver enables or disables the event interrupt source. *)
Definition spi_enable_evt_intr (en : bool) (m : machine) : machine :=
  {| pc := pc m; mstatus_mie := mstatus_mie m;
     spi_intr_flag := spi_intr_flag m; evt_intr := en;
     rxwm_intr := rxwm_intr m; irq_raised := irq_raised m;
     log := log m |}.

(** Modelled from the spec: [spi_enable_rxwm_intr(&spi_host, en)] of the
    SPI host driver enables or disables the RX watermark interrupt
    source. *)
Definition spi_enable_rxwm_intr (en : bool) (m : machine) : machine :=
  {| pc := pc m; mstatus_mie := mstatus_mie m;
     spi_intr_flag := spi_intr_flag m; evt_intr := evt_intr m;
     rxwm_intr := en; irq_raised := irq_raised m;
     log := log m |}.

Definition set_spi_intr_flag (v : Z) (m : machine) : machine :=
  {| pc := pc m; mstatus_mie := mstatus_mie m;
     spi_intr_flag := v; evt_intr := evt_intr m;
     rxwm_intr := rxwm_intr m; irq_raised := irq_raised m;
     log := log m |}.

Definition raise_irq (m : machine) : machine :=
  {| pc := pc m; mstatus_mie := mstatus_mie m;
     spi_intr_flag := spi_intr_flag m; evt_intr := evt_intr m;
     rxwm_intr := rxwm_intr m; irq_raised := true;
     log := log m |}.

(** [[
    void fic_irq_spi(void)
    {
        spi_enable_evt_intr(&spi_host, false);
        spi_enable_rxwm_intr(&spi_host, false);
        spi_intr_flag = 1;
    }
    ]] *)
Definition fic_irq_spi (m : machine) : machine :=
  let m := with_log [AHandlerDisableEvt] (spi_enable_evt_intr false m) in
  let m := with_log [AHandlerDisableRxwm] (spi_enable_rxwm_intr false m) in
  with_log [AHandlerSetFlag] (set_spi_intr_flag 1 m).

(** The interrupt reaches the core when the host's condition is raised,
    one of its two sources is enabled and [mstatus.MIE] is set. *)
Definition irq_taken (m : machine) : bool :=
  irq_raised m && (evt_intr m || rxwm_intr m) && mstatus_mie m.

(** One statement of
    [[
    while( spi_intr_flag == 0 ) {
        CSR_CLEAR_BITS(CSR_REG_MSTATUS, 0x8);
        if( spi_intr_flag == 0 )
            wait_for_interrupt();
        CSR_SET_BITS(CSR_REG_MSTATUS, 0x8);
    }
    ]]
    A suspended core may resume at any time. *)
Definition main_step (m : machine) : machine :=
  match pc m with
  | PcWhile =>
      let m := with_log [ATestWhile (spi_intr_flag m)] m in
      if spi_intr_flag m =? 0 then goto PcClear m else goto PcExit m
  | PcClear =>
      goto PcIf (with_log [AClearMstatusMie] (set_mstatus_mie false m))
  | PcIf =>
      let m := with_log [ATestIf (spi_intr_flag m)] m in
      if spi_intr_flag m =? 0
      then goto PcWfi (with_log [ASuspend] m)
      else goto PcSet m
  | PcWfi => goto PcSet (with_log [AWake] m)
  | PcSet =>
      goto PcWhile (with_log [ASetMstatusMie] (set_mstatus_mie true m))
  | PcExit => m
  end.

Inductive step_kind : Type :=
| MainStep      (* the main program runs one statement *)
| HostRaises    (* the SPI host raises its interrupt condition *)
| Interrupt.    (* the core takes the interrupt, if it can *)

Definition step (k : step_kind) (m : machine) : machine :=
  match k with
  | MainStep => main_step m
  | HostRaises => raise_irq m
  | Interrupt => if irq_taken m then fic_irq_spi m else m
  end.

Definition run (sched : list step_kind) (m : machine) : machine :=
  fold_left (fun m k => step k m) sched m.

(** The signal as armed by lines 126-148 of [main]: [mstatus.MIE] set,
    flag cleared, both sources enabled. *)
Definition armed : machine :=
  {| pc := PcWhile; mstatus_mie := true; spi_intr_flag := 0;
     evt_intr := true; rxwm_intr := true; irq_raised := false;
     log := [] |}.

(** *** Reading the log *)

Definition is_handler_action (a : action) : bool :=
  match a with
  | AHandlerDisableEvt | AHandlerDisableRxwm | AHandlerSetFlag => true
  | _ => false
  end.

(** What the main program did. *)
Definition main_actions (l : list action) : list action :=
  filter (fun a => negb (is_handler_action a)) l.

(** What the handler did. *)
Definition handler_actions (l : list action) : list action :=
  filter is_handler_action l.

(** Number of times the flag was set, that is, of entries into the
    Signaled state. *)
Definition signaled_count (l : list action) : nat :=
  length (filter (fun a => match a with AHandlerSetFlag => true
                                   | _ => false end) l).

(** One run of the handler. *)
Definition handler_run : list action :=
  [AHandlerDisableEvt; AHandlerDisableRxwm; AHandlerSetFlag].

(** One turn of the wait loop: the [while] test finds the flag unset,
    global interrupts are disabled, the flag is tested again, the core
    is suspended and wakes only if the flag was found unset, global
    interrupts are enabled again. *)
Definition turn (suspended : bool) : list action :=
  [ATestWhile 0; AClearMstatusMie] ++
  (if suspended then [ATestIf 0; ASuspend; AWake] else [ATestIf 1]) ++
  [ASetMstatusMie].

(** What the main program has done of the turn under way, by the place
    where it stands. *)
Definition turn_under_way (m : machine) (done : list action) : Prop :=
  match pc m with
  | PcWhile => done = []
  | PcClear => done = [ATestWhile 0]
  | PcIf => done = [ATestWhile 0; AClearMstatusMie]
  | PcWfi => done = [ATestWhile 0; AClearMstatusMie; ATestIf 0; ASuspend]
  | PcSet =>
      done = [ATestWhile 0; AClearMstatusMie; ATestIf 0; ASuspend; AWake]
      \/ done = [ATestWhile 0; AClearMstatusMie; ATestIf 1]
  | PcExit => done = [ATestWhile 1]
  end.

(** Global interrupts are disabled exactly between the
    [CSR_CLEAR_BITS] and the [CSR_SET_BITS] of a turn. *)
Definition mie_expected (p : pc_t) : bool :=
  match p with
  | PcIf | PcWfi | PcSet => false
  | PcWhile | PcClear | PcExit => true
  end.

(** The signal is either still armed, or was signaled by one run of
    the handler. *)
Definition signal_state (m : machine) : Prop :=
  (spi_intr_flag m = 0 /\ handler_actions (log m) = [] /\
   signaled_count (log m) = 0%nat /\
   evt_intr m = true /\ rxwm_intr m = true) \/
  (spi_intr_flag m = 1 /\ handler_actions (log m) = handler_run /\
   signaled_count (log m) = 1%nat /\
   evt_intr m = false /\ rxwm_intr m = false).

(** What holds of every state the machine reaches from [armed]. *)
Definition invariant (m : machine) : Prop :=
  (exists turns done,
      main_actions (log m) = flat_map turn turns ++ done /\
      turn_under_way m done) /\
  mstatus_mie m = mie_expected (pc m) /\
  (pc m = PcWfi -> spi_intr_flag m = 0) /\
  signal_state m.

End Completion.

(** ** Fast Read Quad I/O example: address reversal and clock divider *)

Module QuadIO.
Import CInt Completion.

(** [#define REVERT_24b_ADDR(addr)
      ((((uint32_t)(addr) & 0xff0000) >> 16)
       | ((uint32_t)(addr) & 0xff00)
       | (((uint32_t)(addr) & 0xff) << 16))] *)
Definition REVERT_24b_ADDR (addr : Z) : Z :=
  Z.lor
    (Z.lor (Z.shiftr (Z.land (u32 addr) 0xff0000) 16)
           (Z.land (u32 addr) 0xff00))
    (u32 (Z.shiftl (Z.land (u32 addr) 0xff) 16)).

(** [#define FLASH_CLK_MAX_HZ (133*1000*1000)] *)
Definition FLASH_CLK_MAX_HZ : Z := 133 * 1000 * 1000.

(** [clk_div = (core_clk/(FLASH_CLK_MAX_HZ) - 2)/2;] evaluated in
    [uint32_t] and stored in a [uint16_t]. *)
Definition clk_div_trunc (core_clk : Z) : Z :=
  u16 (u32 (u32 (core_clk / FLASH_CLK_MAX_HZ) - 2) / 2).

(** [core_clk/(2 + 2 * clk_div)]: the SPI clock obtained with a given
    divider ([clk_div] is promoted to [int], the sum converted to
    [uint32_t] for the division). *)
Definition spi_clk (core_clk clk_div : Z) : Z :=
  core_clk / u32 (2 + 2 * clk_div).

(** [[
    uint16_t clk_div = 0;
    if(FLASH_CLK_MAX_HZ < core_clk/2){
        clk_div = (core_clk/(FLASH_CLK_MAX_HZ) - 2)/2;
        if (core_clk/(2 + 2 * clk_div) > FLASH_CLK_MAX_HZ) clk_div += 1;
    }
    ]] *)
Definition compute_clk_div (core_clk : Z) : Z :=
  let clk_div := 0 in
  if FLASH_CLK_MAX_HZ <? core_clk / 2 then
    let clk_div := clk_div_trunc core_clk in
    if FLASH_CLK_MAX_HZ <? spi_clk core_clk clk_div
    then u16 (clk_div + 1)
    else clk_div
  else clk_div.

(** *** SPI host commands *)

(** Modelled from the spec: the segment descriptor types are declared in
    the SPI host driver ([spi_host.h]), not in the application.  A command
    segment has a length (encoded as length-1), a speed in
    Standard / Dual / Quad, a direction in TxOnly / RxOnly /
    Bidirectional / Dummy and the chip-select-hold flag. *)
Inductive spi_speed_e : Type :=
| kSpiSpeedStandard | kSpiSpeedDual | kSpiSpeedQuad.

Inductive spi_dir_e : Type :=
| kSpiDirDummy | kSpiDirRxOnly | kSpiDirTxOnly | kSpiDirBidir.

Record spi_command_t : Type := {
  len : Z;
  csaat : bool;
  speed : spi_speed_e;
  direction : spi_dir_e
}.

(** Calls into the SPI host driver and the interrupt-related steps of
    [main], in program order.  [SpiSetCommand c] stands for
    [spi_set_command(&spi_host, spi_create_command(c))];
    [WaitForSpiInterrupt] marks the entry of the wait loop of lines
    264-271. *)
Inductive spi_event : Type :=
| CsrSetMstatusMie
| CsrSetMie (mask : Z)
| ClearIntrFlag
| SelectSpiHost
| SpiSetEnable (en : bool)
| SpiEnableEvtIntr (en : bool)
| SpiEnableRxwmIntr (en : bool)
| SpiOutputEnable (en : bool)
| SpiSetConfigopts (csid clkdiv : Z)
| SpiSetCsid (csid : Z)
| SpiSetRxWatermark (words : Z)
| SpiWriteWord (w : Z)
| SpiSetCommand (c : spi_command_t)
| SpiWaitForReady
| WaitForSpiInterrupt
| SpiReadWord (w : Z).

Definition W25Q128JW_CMD_RELEASE_POWERDOWN : Z := 0xab.
Definition W25Q128JW_CMD_READ_QUADIO : Z := 0xeb.

(** Power up flash: one segment, [csaat = false]. *)
Definition cmd_powerup : spi_command_t :=
  {| len := 3; csaat := false;
     speed := kSpiSpeedStandard; direction := kSpiDirTxOnly |}.

Definition power_up : list spi_event :=
  let powerup_byte_cmd := W25Q128JW_CMD_RELEASE_POWERDOWN in
  [ SpiWriteWord powerup_byte_cmd;
    SpiSetCommand cmd_powerup;
    SpiWaitForReady ].

(** Segment 1: the opcode. *)
Definition cmd_read : spi_command_t :=
  {| len := 0; csaat := true;
     speed := kSpiSpeedStandard; direction := kSpiDirTxOnly |}.

(** Segment 2: the address. *)
Definition cmd_address : spi_command_t :=
  {| len := 3; csaat := true;
     speed := kSpiSpeedQuad; direction := kSpiDirTxOnly |}.

(** Segment 3: the dummy clocks. *)
Definition dummy_clocks_cmd : spi_command_t :=
  {| len := 7; csaat := true;
     speed := kSpiSpeedQuad; direction := kSpiDirDummy |}.

(** Segment 4: the data. *)
Definition cmd_read_rx : spi_command_t :=
  {| len := 31; csaat := false;
     speed := kSpiSpeedQuad; direction := kSpiDirRxOnly |}.

(** The Fast Read Quad I/O command of [main]. *)
Definition fast_read_quadio (read_byte_cmd : Z) : list spi_event :=
  let cmd_read_quadIO := W25Q128JW_CMD_READ_QUADIO in
  [ SpiWriteWord cmd_read_quadIO;
    SpiWaitForReady;
    SpiSetCommand cmd_read;
    SpiWaitForReady;
    SpiWriteWord read_byte_cmd;
    SpiWaitForReady;
    SpiSetCommand cmd_address;
    SpiWaitForReady;
    SpiSetCommand dummy_clocks_cmd;
    SpiWaitForReady;
    SpiSetCommand cmd_read_rx;
    SpiWaitForReady ].

(** The segments a sequence of driver calls hands to the host, in
    order. *)
Fixpoint segments (es : list spi_event) : list spi_command_t :=
  match es with
  | [] => []
  | SpiSetCommand c :: es' => c :: segments es'
  | _ :: es' => segments es'
  end.

(** The readiness polls among a sequence of driver calls. *)
Definition is_wait (c : spi_event) : bool :=
  match c with
  | SpiWaitForReady => true
  | _ => false
  end.

Definition waits (es : list spi_event) : nat := length (filter is_wait es).

(** Modelled from the spec: [spi_wait_for_ready(&spi_host)] belongs to
    the SPI host driver; it blocks until the host reports ready for the
    next segment and has no timeout, so it returns only if the host ever
    becomes ready.  [ready k] tells whether it does for the poll number
    [k] of the run.  [issue ready k es] is the part of the calls [es]
    that is made, up to and including the first poll that never returns,
    and whether the calls were gone through; [k] polls came before. *)
Fixpoint issue (ready : nat -> bool) (k : nat) (es : list spi_event)
  : list spi_event * bool :=
  match es with
  | [] => ([], true)
  | SpiWaitForReady :: es' =>
      if ready k then
        let '(made, through) := issue ready (S k) es' in
        (SpiWaitForReady :: made, through)
      else ([SpiWaitForReady], false)
  | c :: es' =>
      let '(made, through) := issue ready k es' in
      (c :: made, through)
  end.

(** *** [main] *)

(** What [main] obtains from its surroundings. *)
Record soc : Type := {
  (** [TARGET_PYNQ_Z2], hence [USE_SPI_FLASH], defined at build time. *)
  USE_SPI_FLASH : bool;
  (** [get_spi_flash_mode(&soc_ctrl) == SOC_CTRL_SPI_FLASH_MODE_SPIMEMIO] *)
  spimemio : bool;
  (** [soc_ctrl_get_frequency(&soc_ctrl)] *)
  core_clk : Z;
  (** the address of [flash_original], as a [uint32_t]. *)
  flash_original_addr : Z;
  (** the eight words at [FLASH_MEM_START_ADDRESS]. *)
  ptr_flash : list Z;
  (** the words the RX FIFO delivers to the eight [spi_read_word]. *)
  rx_fifo : list Z;
  (** whether the host ever reports ready to the [k]-th
      [spi_wait_for_ready] of the run, counted from 0. *)
  host_ready : nat -> bool;
  (** what happens around the wait loop from the arming of the
      completion signal on, in order, for as long as the run is
      observed: statements of the loop, the host raising its interrupt
      condition, the core taking the interrupt. *)
  schedule : list step_kind
}.

(** [uint32_t flash_original[8] = {1};] *)
Definition flash_original_init : list Z := [1; 0; 0; 0; 0; 0; 0; 0].

(** [(REVERT_24b_ADDR(flash_original) | 0xFF << 24)] and, in the
    memory-mapped simulation case,
    [((REVERT_24b_ADDR(0x0) << 8) | 0x03)]. *)
Definition read_byte_cmd (e : soc) : Z :=
  if spimemio e then
    Z.lor (u32 (Z.shiftl (REVERT_24b_ADDR 0x0) 8)) 0x03
  else
    Z.lor (REVERT_24b_ADDR (flash_original_addr e))
          (u32 (Z.shiftl 0xFF 24)).

(** [for(int i =0; i < 8 ; i++) flash_original[i] = ptr_flash[i];] *)
Definition flash_original (e : soc) : list Z :=
  if spimemio e then map (fun i => word_at (ptr_flash e) (Z.of_nat i)) (seq 0 8)
  else flash_original_init.

(** Lines 126-175: interrupt enables, host enable and configuration. *)
Definition setup (e : soc) : list spi_event :=
  [ CsrSetMstatusMie;
    CsrSetMie (if USE_SPI_FLASH e then Z.shiftl 1 21 else Z.shiftl 1 20);
    ClearIntrFlag ] ++
  (if USE_SPI_FLASH e then [SelectSpiHost] else []) ++
  [ SpiSetEnable true;
    SpiEnableEvtIntr true;
    SpiEnableRxwmIntr true;
    SpiOutputEnable true;
    SpiSetConfigopts 0 (compute_clk_div (core_clk e));
    SpiSetCsid 0;
    SpiSetRxWatermark 8 ].

(** [for (int i=0; i<8; i++) spi_read_word(&spi_host, &flash_data[i]);] *)
Definition flash_data (e : soc) : list Z :=
  map (fun i => word_at (rx_fifo e) (Z.of_nat i)) (seq 0 8).

(** [[
    for (int i=0; i<8; i++) {
        if(flash_data[i] != *ram_ptr) { PRINTF; errors++; }
        ram_ptr++;
    }
    ]] *)
Fixpoint compare_loop (n : nat) (i : Z) (flash_data ram : list Z)
         (errors : Z) : Z :=
  match n with
  | O => errors
  | S n' =>
      compare_loop n' (i + 1) flash_data ram
        (if negb (word_at flash_data i =? word_at ram i)
         then u32 (errors + 1) else errors)
  end.

Definition count_errors (flash_data ram : list Z) : Z :=
  let errors := 0 in
  compare_loop 8 0 flash_data ram errors.

(** The main program is past the wait loop. *)
Definition past_loop (m : machine) : bool :=
  match pc m with
  | PcExit => true
  | _ => false
  end.

(** Exit code, if [main] returns, and driver calls of [main].

    Two places of [main] wait without bound: each
    [spi_wait_for_ready], and the loop
    [while( spi_intr_flag == 0 ) { ... }] of lines 264-271, which is left
    only once the handler [fic_irq_spi] has set the flag.  The loop is
    the machine of [Completion], run from [armed] along the schedule of
    the surroundings.  The exit code is [None] when [main] has not
    returned: it is inside a readiness poll that never returns, or still
    in the wait loop at the end of the schedule. *)
Definition main (e : soc) : option Z * list spi_event :=
  if spimemio e && USE_SPI_FLASH e then (Some EXIT_SUCCESS, [])
  else
    let '(calls, through) :=
      issue (host_ready e) 0
            (setup e ++ power_up ++ fast_read_quadio (read_byte_cmd e)) in
    if negb through then (None, calls)
    else if negb (past_loop (run (schedule e) armed))
    then (None, calls ++ [ WaitForSpiInterrupt ])
    else
      let calls :=
        calls ++
        [ WaitForSpiInterrupt; SpiEnableEvtIntr true; SpiEnableRxwmIntr true ]
        ++ map SpiReadWord (flash_data e) in
      let errors := count_errors (flash_data e) (flash_original e) in
      if errors =? 0 then (Some EXIT_SUCCESS, calls)
      else (Some EXIT_FAILURE, calls).

(** *** Sample runs *)

(** A 20 MHz simulation run in which every poll returns and the RX FIFO
    delivers the reference words; the schedule is left open. *)
Definition sim_run (sched : list step_kind) : soc :=
  {| USE_SPI_FLASH := false; spimemio := false;
     core_clk := 20000000; flash_original_addr := 0x00012340;
     ptr_flash := []; rx_fifo := [1; 0; 0; 0; 0; 0; 0; 0];
     host_ready := fun _ => true;
     schedule := sched |}.

End QuadIO.

(** ** Flash profiling application *)

Module Profiling.
Import CInt.

(** [#define DMA_MODE 0] *)
Definition DMA_MODE : bool := false.

(** [#define FLASH_ADDR 0x00008500] *)
Definition FLASH_ADDR : Z := 0x00008500.

(** [#define MAX_TEST_BUF_LEN 1024] *)
Definition MAX_TEST_BUF_LEN : Z := 1024.

(** [int hart_id = 0;] *)
Definition hart_id : Z := 0.

(** Modelled from the spec: the status type [error_codes_t] is declared in
    the flash driver ([w25q128jw.h]), not in the application; a status is
    Ok or a distinguished flash-error kind. *)
Inductive error_codes_t : Type :=
| FLASH_OK
| FLASH_ERROR (kind : Z).

(** [status != FLASH_OK] *)
Definition is_error (status : error_codes_t) : bool :=
  match status with
  | FLASH_OK => false
  | FLASH_ERROR _ => true
  end.

(** The two speed modes of the profiled driver functions
    ([w25q128jw_*_standard*] / [w25q128jw_*_quad*]). *)
Inductive speed_mode : Type := Standard | Quad.

(** What a run does, in program order: driver and timer calls with what
    they returned, lines printed, and the end of each verification. *)
Inductive event : Type :=
| EvFlashInit (status : error_codes_t)
| EvTimerInit
| EvWriteLower0 (hart value : Z)        (* mmio write of TIMER_V_LOWER0 *)
| EvWriteUpper0 (hart value : Z)        (* mmio write of TIMER_V_UPPER0 *)
| EvCounterEnabled (hart : Z) (en : bool)
| EvCounterRead (hart value : Z)
| EvFlashWrite (sp : speed_mode) (dma : bool) (addr len : Z)
               (status : error_codes_t)
| EvFlashRead (sp : speed_mode) (dma : bool) (addr len : Z)
              (status : error_codes_t)
| EvPrintW (timer_value : Z)
| EvPrintR (timer_value : Z)
| EvMismatch (i j actual ref : Z)
| EvVerified (i errors : Z)             (* the inner loop of iteration [i] is
                                           over, with this local count *)
| EvSuccess
| EvFailure (errors : Z).

(** The tick counter of hart 0 of the always-on timer: the two raw value
    registers and the enable bit. *)
Record rv_timer_t : Type := {
  v_lower0 : Z;
  v_upper0 : Z;
  counting : bool
}.

(** The external collaborators of one run: what each driver call answers,
    how many ticks elapse during it and what a read leaves in the
    destination buffer.  Every (speed, length) pair is written and read
    at most once per run, so indexing the answers by them loses no
    generality. *)
Record world : Type := {
  (** [const uint32_t flash_original_32[]] of [data_array.bin], 1 kB. *)
  flash_original_32 : list Z;
  init_status  : error_codes_t;
  write_status : speed_mode -> Z -> error_codes_t;
  write_ticks  : speed_mode -> Z -> Z;
  (** status, and contents of [flash_data_32] after the call, given its
      contents before. *)
  read_result  : speed_mode -> Z -> list Z -> error_codes_t * list Z;
  read_ticks   : speed_mode -> Z -> Z;
  (** the timer registers as [init_timer] leaves them. *)
  timer_after_init : rv_timer_t
}.

(** Modelled from the spec: [rv_timer_counter_read] belongs to the timer
    driver, not to the application; it reads back the elapsed tick count
    as a 64-bit value, made of the upper and lower raw registers. *)
Definition counter_value (t : rv_timer_t) : Z :=
  u64 (v_upper0 t * 2 ^ 32 + v_lower0 t).

(** Modelled from the spec: the free-running counter advances only while
    counting is enabled. *)
Definition timer_tick (n : Z) (t : rv_timer_t) : rv_timer_t :=
  if counting t then
    let v := u64 (counter_value t + n) in
    {| v_lower0 := v mod 2 ^ 32; v_upper0 := v / 2 ^ 32;
       counting := true |}
  else t.

(** Program state: the globals and the locals of [main] that outlive a
    statement, and the log of what was done so far, most recent event
    first. *)
Record state : Type := {
  flash_data_32 : list Z;       (* uint32_t flash_data_32[MAX_TEST_BUF_LEN] *)
  timer_0_1 : rv_timer_t;
  errors : Z;                   (* the [errors] of line 65 *)
  flag : Z;
  log : list event
}.

(** The events so far, in program order. *)
Definition trace (s : state) : list event := rev_append (log s) [].

(** A statement either falls through to the next one or leaves [main]
    with an exit code. *)
Inductive outcome (A : Type) : Type :=
| Next (a : A) (s : state)
| Return (code : Z) (s : state).
Arguments Next {A} a s.
Arguments Return {A} code s.

Definition M (A : Type) : Type := state -> outcome A.

Definition ret {A} (a : A) : M A := fun s => Next a s.

Definition bind {A B} (c : M A) (k : A -> M B) : M B :=
  fun s =>
    match c s with
    | Next a s' => k a s'
    | Return code s' => Return code s'
    end.

(** [return code;] *)
Definition return_ {A} (code : Z) : M A := fun s => Return code s.

Declare Scope prog_scope.
Delimit Scope prog_scope with prog.
Notation "x <- c ;; k" := (bind c (fun x => k))
  (at level 61, c at next level, right associativity) : prog_scope.
Notation "c ;; k" := (bind c (fun _ => k))
  (at level 61, right associativity) : prog_scope.
Local Open Scope prog_scope.

Definition emit (e : event) : M unit :=
  fun s =>
    Next tt {| flash_data_32 := flash_data_32 s; timer_0_1 := timer_0_1 s;
               errors := errors s; flag := flag s;
               log := e :: log s |}.

Definition get_timer : M rv_timer_t := fun s => Next (timer_0_1 s) s.

Definition set_timer (t : rv_timer_t) : M unit :=
  fun s =>
    Next tt {| flash_data_32 := flash_data_32 s; timer_0_1 := t;
               errors := errors s; flag := flag s; log := log s |}.

Definition get_flash_data : M (list Z) := fun s => Next (flash_data_32 s) s.

Definition set_flash_data (d : list Z) : M unit :=
  fun s =>
    Next tt {| flash_data_32 := d; timer_0_1 := timer_0_1 s;
               errors := errors s; flag := flag s; log := log s |}.

Definition get_errors : M Z := fun s => Next (errors s) s.

Definition set_flag (v : Z) : M unit :=
  fun s =>
    Next tt {| flash_data_32 := flash_data_32 s; timer_0_1 := timer_0_1 s;
               errors := errors s; flag := v; log := log s |}.

Definition emit_all (es : list event) : M unit :=
  fun s =>
    Next tt {| flash_data_32 := flash_data_32 s; timer_0_1 := timer_0_1 s;
               errors := errors s; flag := flag s;
               log := rev_append es (log s) |}.

(** [for (i = i0; ...; i++) body], for a loop that runs [n] times and
    whose body updates the locals [a]; a [return] inside the body leaves
    the loop at once. *)
Fixpoint for_loop {A} (n : nat) (i : Z) (body : Z -> A -> M A) (a : A)
  : M A :=
  match n with
  | O => ret a
  | S n' => a' <- body i a ;; for_loop n' (i + 1) body a'
  end.

(** *** Timer *)

(** [mmio_region_write32] on the two raw value registers. *)
Definition write_lower0 (v : Z) (t : rv_timer_t) : rv_timer_t :=
  {| v_lower0 := u32 v; v_upper0 := v_upper0 t; counting := counting t |}.

Definition write_upper0 (v : Z) (t : rv_timer_t) : rv_timer_t :=
  {| v_lower0 := v_lower0 t; v_upper0 := u32 v; counting := counting t |}.

(** [[
    static void reset_timer(uint32_t hart_id) {
        mmio_region_write32(timer_0_1_reg,
            reg_for_hart(hart_id, RV_TIMER_TIMER_V_LOWER0_REG_OFFSET), 0x0);
        mmio_region_write32(timer_0_1_reg,
            reg_for_hart(hart_id, RV_TIMER_TIMER_V_UPPER0_REG_OFFSET), 0x0);
    }
    ]] *)
Definition reset_timer (hart : Z) : M unit :=
  t <- get_timer ;;
  set_timer (write_lower0 0x0 t) ;;
  emit (EvWriteLower0 hart 0x0) ;;
  t <- get_timer ;;
  set_timer (write_upper0 0x0 t) ;;
  emit (EvWriteUpper0 hart 0x0).

(** Modelled from the spec: [rv_timer_counter_set_enabled] belongs to the
    timer driver, not to the application; it enables or disables counting
    for a hart. *)
Definition rv_timer_counter_set_enabled (hart : Z) (en : bool) : M unit :=
  t <- get_timer ;;
  set_timer {| v_lower0 := v_lower0 t; v_upper0 := v_upper0 t;
               counting := en |} ;;
  emit (EvCounterEnabled hart en).

Definition kRvTimerEnabled : bool := true.
Definition kRvTimerDisabled : bool := false.

(** Modelled from the spec: [rv_timer_counter_read], see
    [counter_value]. *)
Definition rv_timer_counter_read (hart : Z) : M Z :=
  t <- get_timer ;;
  emit (EvCounterRead hart (counter_value t)) ;;
  ret (counter_value t).

(** [static mmio_region_t init_timer(void)] *)
Definition init_timer (w : world) : M unit :=
  set_timer (timer_after_init w) ;;
  emit EvTimerInit.

(** *** Driver calls *)

(** Time passes while the driver call runs. *)
Definition elapse (n : Z) : M unit :=
  t <- get_timer ;;
  set_timer (timer_tick n t).

(** [w25q128jw_init()] *)
Definition w25q128jw_init (w : world) : M error_codes_t :=
  emit (EvFlashInit (init_status w)) ;;
  ret (init_status w).

(** [w25q128jw_write_standard[_dma](FLASH_ADDR, test_buffer, i)] and
    [w25q128jw_write_quad[_dma](FLASH_ADDR, test_buffer, i)], the variant
    being selected by [DMA_MODE]. *)
Definition w25q128jw_write (w : world) (sp : speed_mode) (len : Z)
  : M error_codes_t :=
  elapse (write_ticks w sp len) ;;
  emit (EvFlashWrite sp DMA_MODE FLASH_ADDR len (write_status w sp len)) ;;
  ret (write_status w sp len).

(** [w25q128jw_read_standard[_dma](FLASH_ADDR, flash_data, i)] and
    [w25q128jw_read_quad[_dma](FLASH_ADDR, flash_data, i)]. *)
Definition w25q128jw_read (w : world) (sp : speed_mode) (len : Z)
  : M error_codes_t :=
  d <- get_flash_data ;;
  set_flash_data (snd (read_result w sp len d)) ;;
  elapse (read_ticks w sp len) ;;
  emit (EvFlashRead sp DMA_MODE FLASH_ADDR len
                    (fst (read_result w sp len d))) ;;
  ret (fst (read_result w sp len d)).

(** *** Verification of the data read back *)

(** The bound of the inner loop: [(i%4==0 ? i/4 : i/4+1)]. *)
Definition check_bound (i : Z) : Z :=
  if Z.rem i 4 =? 0 then Z.quot i 4 else Z.quot i 4 + 1.

(** One round of the inner loop:
    [[
    if (j < i/4 ) {
        if(flash_data_check[j] != test_buffer_check[j]) { printf; errors++; }
    } else {
        uint32_t last_bytes = 0;
        memcpy(&last_bytes, &test_buffer_check[j], i % 4);
        if (flash_data_check[j] != last_bytes) { printf; errors++; }
    }
    ]]
    [acc] holds the local [errors] and the lines printed so far. *)
Definition check_word (i : Z) (flash_data_check test_buffer_check : list Z)
           (j : Z) (acc : Z * list event) : Z * list event :=
  let '(errors, printed) := acc in
  if j <? Z.quot i 4 then
    if negb (word_at flash_data_check j =? word_at test_buffer_check j) then
      (u32 (errors + 1),
       printed ++ [EvMismatch i j (word_at flash_data_check j)
                              (word_at test_buffer_check j)])
    else (errors, printed)
  else
    let last_bytes := 0 in
    let last_bytes :=
      memcpy_u32 last_bytes (word_at test_buffer_check j)
                 (Z.to_nat (Z.rem i 4)) in
    if negb (word_at flash_data_check j =? last_bytes) then
      (u32 (errors + 1),
       printed ++ [EvMismatch i j (word_at flash_data_check j) last_bytes])
    else (errors, printed).

Fixpoint check_loop (n : nat) (i : Z)
         (flash_data_check test_buffer_check : list Z)
         (j : Z) (acc : Z * list event) : Z * Z * list event :=
  match n with
  | O => (j, fst acc, snd acc)
  | S n' =>
      check_loop n' i flash_data_check test_buffer_check (j + 1)
                 (check_word i flash_data_check test_buffer_check j acc)
  end.

(** [[
    uint32_t errors = 0;
    for (int j=0; j < (i%4==0 ? i/4 : i/4+1); j++) { ... }
    ]]
    Returns the final [j], the local [errors] and the lines printed. *)
Definition check_read (i : Z) (flash_data_check test_buffer_check : list Z)
  : Z * Z * list event :=
  let errors := 0 in
  check_loop (Z.to_nat (check_bound i)) i flash_data_check
             test_buffer_check 0 (errors, []).

(** *** The profiling loops and [main] *)

(** Body of [for (int i = 1; i <= MAX_TEST_BUF_LEN; i++)]; the two loops
    of [main] differ only in the driver functions they call.  The
    [errors] of the verification is the one declared inside the body
    ([uint32_t errors = 0;]); its reset at the end of the body has no
    effect and is left out. *)
Definition profile_iteration (w : world) (sp : speed_mode) (i : Z)
           (_ : unit) : M unit :=
  reset_timer hart_id ;;
  rv_timer_counter_set_enabled hart_id kRvTimerEnabled ;;
  status <- w25q128jw_write w sp i ;;
  rv_timer_counter_set_enabled hart_id kRvTimerDisabled ;;
  if is_error status then return_ EXIT_FAILURE else
  timer_value <- rv_timer_counter_read hart_id ;;
  emit (EvPrintW timer_value) ;;
  reset_timer hart_id ;;
  rv_timer_counter_set_enabled hart_id kRvTimerEnabled ;;
  status <- w25q128jw_read w sp i ;;
  rv_timer_counter_set_enabled hart_id kRvTimerDisabled ;;
  if is_error status then return_ EXIT_FAILURE else
  timer_value <- rv_timer_counter_read hart_id ;;
  emit (EvPrintR timer_value) ;;
  flash_data_check <- get_flash_data ;;
  let '(_, errors, printed) :=
    check_read i flash_data_check (flash_original_32 w) in
  emit_all printed ;;
  emit (EvVerified i errors) ;;
  (if errors >? 0 then set_flag 1 else ret tt).

Definition profile_loop (w : world) (sp : speed_mode) : M unit :=
  for_loop (Z.to_nat (MAX_TEST_BUF_LEN - 1 + 1)) 1
           (profile_iteration w sp) tt.

(** [int main(int argc, char *argv[])].  The [errors] tested at the end
    is the variable declared at the top of [main]; each loop body
    declares an [errors] of its own. *)
Definition main_body (w : world) : M unit :=
  status <- w25q128jw_init w ;;
  if is_error status then return_ EXIT_FAILURE else
  init_timer w ;;
  profile_loop w Standard ;;
  profile_loop w Quad ;;
  errors <- get_errors ;;
  if errors =? 0 then
    emit EvSuccess ;; return_ EXIT_SUCCESS
  else
    emit (EvFailure errors) ;; return_ EXIT_FAILURE.

(** State at the entry of [main]: zero-initialised globals,
    [errors = 0], [flag = 0]. *)
Definition initial_state : state :=
  {| flash_data_32 := repeat 0 (Z.to_nat MAX_TEST_BUF_LEN);
     timer_0_1 := {| v_lower0 := 0; v_upper0 := 0; counting := false |};
     errors := 0; flag := 0; log := [] |}.

(** Exit code and trace of a whole run.  Every path of [main_body] ends
    with a [return]; reaching the closing brace of [main] would return
    0. *)
Definition main (w : world) : Z * list event :=
  match main_body w initial_state with
  | Return code s => (code, trace s)
  | Next _ s => (0, trace s)
  end.

End Profiling.

(** ** The profiling application in the words of its specification

    Definitions the theorems compare the embedded code with. *)

Module ProfilingSpec.
Import CInt Profiling.

(** [ceil(L/4)], the number of 32-bit words that hold [L] bytes. *)
Definition ceil_div4 (L : Z) : Z := (L + 3) / 4.

(** The word indices [0 .. ceil(L/4) - 1]. *)
Definition word_indices (L : Z) : list Z :=
  map Z.of_nat (seq 0 (Z.to_nat (ceil_div4 L))).

(** The reference the actual word of index [j] is compared with: the
    full expected word for [j < L/4]; for the final partial word, the
    [L mod 4] valid bytes of the expected word in a zeroed word. *)
Definition spec_reference (L : Z) (expected : list Z) (j : Z) : Z :=
  if j <? L / 4 then word_at expected j
  else word_at expected j mod 2 ^ (8 * (L mod 4)).

Definition differs (L : Z) (actual expected : list Z) (j : Z) : bool :=
  negb (word_at actual j =? spec_reference L expected j).

(** The indices whose comparison differs. *)
Definition spec_mismatches (L : Z) (actual expected : list Z) : list Z :=
  filter (differs L actual expected) (word_indices L).

(** The line printed for a mismatch at index [j]. *)
Definition mismatch_line (L : Z) (actual expected : list Z) (j : Z)
  : event :=
  EvMismatch L j (word_at actual j) (spec_reference L expected j).

(** Two buffers hold the same first [L] bytes: the same full words below
    [L/4] and the same [L mod 4] first bytes in the word of index
    [L/4]. *)
Definition same_first_bytes (L : Z) (b b' : list Z) : Prop :=
  (forall j, 0 <= j < L / 4 -> word_at b j = word_at b' j) /\
  firstn (Z.to_nat (L mod 4)) (bytes_of_u32 (word_at b (L / 4))) =
  firstn (Z.to_nat (L mod 4)) (bytes_of_u32 (word_at b' (L / 4))).

(** The mismatch count of one verification. *)
Definition mismatch_count (L : Z) (actual expected : list Z) : Z :=
  snd (fst (check_read L actual expected)).

(** *** Expected events of one loop iteration *)

(** Timer reset (both halves), start, then after the operation, stop. *)
Definition timer_start_events : list event :=
  [ EvWriteLower0 hart_id 0; EvWriteUpper0 hart_id 0;
    EvCounterEnabled hart_id true ].

Definition timer_stop_event : event := EvCounterEnabled hart_id false.

Definition write_event (w : world) (sp : speed_mode) (i : Z) : event :=
  EvFlashWrite sp DMA_MODE FLASH_ADDR i (write_status w sp i).

Definition read_event (w : world) (sp : speed_mode) (i : Z) (d : list Z)
  : event :=
  EvFlashRead sp DMA_MODE FLASH_ADDR i (fst (read_result w sp i d)).

(** The timed write of length [i]: what is done up to the moment the
    status is tested. *)
Definition timed_write_events (w : world) (sp : speed_mode) (i : Z)
  : list event :=
  timer_start_events ++ [ write_event w sp i; timer_stop_event ].

(** The timed read of length [i], [d] being the destination buffer
    before the call. *)
Definition timed_read_events (w : world) (sp : speed_mode) (i : Z)
           (d : list Z) : list event :=
  timer_start_events ++ [ read_event w sp i d; timer_stop_event ].

(** Reading the elapsed ticks, as a 64-bit value, and printing them. *)
Definition report_write_events (w : world) (sp : speed_mode) (i : Z)
  : list event :=
  [ EvCounterRead hart_id (u64 (write_ticks w sp i));
    EvPrintW (u64 (write_ticks w sp i)) ].

Definition report_read_events (w : world) (sp : speed_mode) (i : Z)
  : list event :=
  [ EvCounterRead hart_id (u64 (read_ticks w sp i));
    EvPrintR (u64 (read_ticks w sp i)) ].

(** The verification of iteration [i]: one line per mismatch, then the
    count. *)
Definition verification_events (i : Z) (actual expected : list Z)
  : list event :=
  snd (check_read i actual expected) ++
  [ EvVerified i (mismatch_count i actual expected) ].

(** Everything one iteration does, [d] being [flash_data_32] at its
    start. *)
Definition iteration_events (w : world) (sp : speed_mode) (i : Z)
           (d : list Z) : list event :=
  timed_write_events w sp i ++
  if is_error (write_status w sp i) then []
  else
    report_write_events w sp i ++
    timed_read_events w sp i d ++
    if is_error (fst (read_result w sp i d)) then []
    else
      report_read_events w sp i ++
      verification_events i (snd (read_result w sp i d))
                          (flash_original_32 w).

(** *** Reading traces *)

(** The status a driver call returned, for the events that are driver
    calls. *)
Definition driver_status (e : event) : option error_codes_t :=
  match e with
  | EvFlashInit st => Some st
  | EvFlashWrite _ _ _ _ st => Some st
  | EvFlashRead _ _ _ _ st => Some st
  | _ => None
  end.

(** A write or read driver call that returned a non-Ok status. *)
Definition failed_transfer (e : event) : bool :=
  match e with
  | EvFlashWrite _ _ _ _ st => is_error st
  | EvFlashRead _ _ _ _ st => is_error st
  | _ => false
  end.

(** Not a failed driver call. *)
Definition ok_event (e : event) : bool :=
  match driver_status e with
  | Some st => negb (is_error st)
  | None => true
  end.

Inductive transfer : Type :=
| Write (sp : speed_mode) (len : Z)
| Read (sp : speed_mode) (len : Z).

(** The write and read calls of a trace, in order. *)
Fixpoint transfers (tr : list event) : list transfer :=
  match tr with
  | [] => []
  | EvFlashWrite sp _ _ len _ :: tr' => Write sp len :: transfers tr'
  | EvFlashRead sp _ _ len _ :: tr' => Read sp len :: transfers tr'
  | _ :: tr' => transfers tr'
  end.

(** The lengths [i, i+1, ...] of [n] successive iterations. *)
Fixpoint lengths_from (i : Z) (n : nat) : list Z :=
  match n with
  | O => []
  | S n' => i :: lengths_from (i + 1) n'
  end.

(** The buffer lengths [1 .. MAX_TEST_BUF_LEN]. *)
Definition all_lengths : list Z :=
  lengths_from 1 (Z.to_nat MAX_TEST_BUF_LEN).

(** Every length of a list written then read at one speed. *)
Definition loop_transfers (sp : speed_mode) (lens : list Z)
  : list transfer :=
  flat_map (fun i => [Write sp i; Read sp i]) lens.

(** A complete loop at one speed. *)
Definition full_loop (sp : speed_mode) : list transfer :=
  loop_transfers sp all_lengths.

(** The iterations whose verification ran to its end, in order. *)
Fixpoint verified (tr : list event) : list Z :=
  match tr with
  | [] => []
  | EvVerified i _ :: tr' => i :: verified tr'
  | _ :: tr' => verified tr'
  end.

(** All driver calls of a world answer Ok. *)
Definition driver_never_fails (w : world) : Prop :=
  init_status w = FLASH_OK /\
  (forall sp i, write_status w sp i = FLASH_OK) /\
  (forall sp i d, fst (read_result w sp i d) = FLASH_OK).

(** Some write or read call of the world answers an error. *)
Definition some_call_fails (w : world) : Prop :=
  exists sp k d,
    is_error (write_status w sp k)
    || is_error (fst (read_result w sp k d)) = true.

(** A mismatch was reported. *)
Definition is_mismatch (e : event) : bool :=
  match e with
  | EvMismatch _ _ _ _ => true
  | _ => false
  end.

(** Events of a stretch of the run that went through: no driver call
    failed, and these are its transfers and verifications. *)
Definition completed (evs : list event) (ts : list transfer)
           (vs : list Z) : Prop :=
  forallb ok_event evs = true /\ transfers evs = ts /\ verified evs = vs.

(** Events of a stretch of the run that a failed transfer ended: after
    the failed call, only the tick counter is stopped. *)
Definition aborted (w : world) (evs : list event) : Prop :=
  some_call_fails w /\
  exists oks bad,
    evs = oks ++ [bad; timer_stop_event] /\
    forallb ok_event oks = true /\ failed_transfer bad = true.

(** The state a statement leaves, whether it falls through or
    returns. *)
Definition final_state {A} (o : outcome A) : state :=
  match o with
  | Next _ s => s
  | Return _ s => s
  end.

(** The state of [main] once the flash and the timer are initialised. *)
Definition after_init (w : world) : state :=
  {| flash_data_32 := flash_data_32 initial_state;
     timer_0_1 := timer_after_init w;
     errors := 0; flag := 0;
     log := [EvTimerInit; EvFlashInit (init_status w)] |}.

(** The last statement of [main]: the exit status, from [errors]. *)
Definition finish (s : state) : outcome unit :=
  if errors s =? 0
  then Return EXIT_SUCCESS
         {| flash_data_32 := flash_data_32 s; timer_0_1 := timer_0_1 s;
            errors := errors s; flag := flag s; log := EvSuccess :: log s |}
  else Return EXIT_FAILURE
         {| flash_data_32 := flash_data_32 s; timer_0_1 := timer_0_1 s;
            errors := errors s; flag := flag s;
            log := EvFailure (errors s) :: log s |}.

(** Stop the counter, reset it, let [n] ticks of time pass, read it. *)
Definition read_after_reset (n : Z) : M Z :=
  (rv_timer_counter_set_enabled hart_id kRvTimerDisabled ;;
   reset_timer hart_id ;;
   elapse n ;;
   rv_timer_counter_read hart_id)%prog.

(** *** Sample worlds *)

Definition idle_timer : rv_timer_t :=
  {| v_lower0 := 0; v_upper0 := 0; counting := false |}.

(** Every driver call answers Ok, but the reads deliver nothing: the
    destination buffer keeps its zeros while the reference data starts
    with a 1. *)
Definition corrupted_world : world :=
  {| flash_original_32 := 1 :: repeat 0 255;
     init_status := FLASH_OK;
     write_status := fun _ _ => FLASH_OK;
     write_ticks := fun _ len => 100 + len;
     read_result := fun _ _ d => (FLASH_OK, d);
     read_ticks := fun _ len => 50 + len;
     timer_after_init := idle_timer |}.

(** A read of [len] bytes that stores exactly the first [len] bytes of
    [src] at the start of the destination buffer [dst]: the full words
    below [len / 4], then the [len mod 4] low bytes of the next word;
    every other byte of [dst] stays as it was. *)
Definition read_exactly (len : Z) (src dst : list Z) : list Z :=
  let q := Z.to_nat (len / 4) in
  firstn q src ++
  (if len mod 4 =? 0 then skipn q dst
   else memcpy_u32 (nth q dst 0) (nth q src 0) (Z.to_nat (len mod 4))
        :: skipn (S q) dst).

(** A healthy flash: every driver call answers Ok and every read of
    [len] bytes delivers exactly the [len] bytes that were written, the
    first [len] bytes of the reference data.  No byte of the reference
    data is zero. *)
Definition healthy_world : world :=
  {| flash_original_32 := repeat 0x04030201 256;
     init_status := FLASH_OK;
     write_status := fun _ _ => FLASH_OK;
     write_ticks := fun _ len => 100 + len;
     read_result := fun _ len d =>
       (FLASH_OK, read_exactly len (repeat 0x04030201 256) d);
     read_ticks := fun _ len => 50 + len;
     timer_after_init := idle_timer |}.

(** The lengths of [1 .. MAX_TEST_BUF_LEN] that end in a partial
    word. *)
Definition partial_lengths : list Z :=
  filter (fun L => negb (L mod 4 =? 0)) all_lengths.

(** The line printed for the last word of length [L] when the actual
    word is the whole reference word of [healthy_world]. *)
Definition partial_word_line (L : Z) : event :=
  EvMismatch L (L / 4) 0x04030201 (0x04030201 mod 2 ^ (8 * (L mod 4))).

(** The standard-speed write of length 2 answers an error; the reads
    deliver the reference data. *)
Definition failing_world : world :=
  {| flash_original_32 := 1 :: repeat 0 255;
     init_status := FLASH_OK;
     write_status := fun sp len =>
       match sp with
       | Standard => if len =? 2 then FLASH_ERROR 1 else FLASH_OK
       | Quad => FLASH_OK
       end;
     write_ticks := fun _ len => 100 + len;
     read_result := fun _ _ d => (FLASH_OK, 1 :: tl d);
     read_ticks := fun _ len => 50 + len;
     timer_after_init := idle_timer |}.

End ProfilingSpec.

(** ** The completion signal: schedules and what they leave *)

Module CompletionSpec.
Import Completion.

Definition is_main_step (k : step_kind) : bool :=
  match k with
  | MainStep => true
  | _ => false
  end.

(** Number of statements the main program runs in a schedule. *)
Definition main_steps (sched : list step_kind) : nat :=
  length (filter is_main_step sched).

(** Number of times the core was suspended. *)
Definition suspensions (l : list action) : nat :=
  length (filter (fun a => match a with ASuspend => true | _ => false end) l).

(** Statements left to the main program before it is past the loop, once
    the flag is set. *)
Definition statements_to_exit (p : pc_t) : nat :=
  match p with
  | PcExit => 0
  | PcWhile => 1
  | PcSet => 2
  | PcIf | PcWfi => 3
  | PcClear => 4
  end.

(** The handler ran: flag set, both sources disabled. *)
Definition signaled (m : machine) : Prop :=
  spi_intr_flag m = 1 /\ evt_intr m = false /\ rxwm_intr m = false.

(** The host raises its interrupt condition somewhere in a schedule. *)
Definition host_raises (sched : list step_kind) : bool :=
  existsb (fun k => match k with HostRaises => true | _ => false end) sched.

End CompletionSpec.

(** ** The profiling run as a sequence of iterations *)

Module RunSpec.
Import CInt Profiling ProfilingSpec.

(** An iteration is cut short by a failed write or read. *)
Definition iteration_fails (w : world) (sp : speed_mode) (i : Z)
           (d : list Z) : bool :=
  is_error (write_status w sp i) || is_error (fst (read_result w sp i d)).

(** [flash_data_32] after an iteration that started with [d]: a failed
    write returns before the read is attempted. *)
Definition iteration_data (w : world) (sp : speed_mode) (i : Z)
           (d : list Z) : list Z :=
  if is_error (write_status w sp i) then d
  else snd (read_result w sp i d).

(** The events of [n] rounds of a loop from length [i] and buffer [d],
    and the buffer they leave, if no round failed. *)
Fixpoint loop_events (w : world) (sp : speed_mode) (n : nat) (i : Z)
         (d : list Z) : list event * option (list Z) :=
  match n with
  | O => ([], Some d)
  | S n' =>
      if iteration_fails w sp i d then (iteration_events w sp i d, None)
      else
        let '(rest, r) :=
          loop_events w sp n' (i + 1) (iteration_data w sp i d) in
        (iteration_events w sp i d ++ rest, r)
  end.

(** Exit code and events of a whole run. *)
Definition main_events (w : world) : Z * list event :=
  if is_error (init_status w)
  then (EXIT_FAILURE, [EvFlashInit (init_status w)])
  else
    let start := [EvFlashInit (init_status w); EvTimerInit] in
    let n := Z.to_nat MAX_TEST_BUF_LEN in
    match loop_events w Standard n 1 (flash_data_32 initial_state) with
    | (e1, None) => (EXIT_FAILURE, start ++ e1)
    | (e1, Some d1) =>
        match loop_events w Quad n 1 d1 with
        | (e2, None) => (EXIT_FAILURE, start ++ e1 ++ e2)
        | (e2, Some _) => (EXIT_SUCCESS, start ++ e1 ++ e2 ++ [EvSuccess])
        end
    end.

(** Some verification of the trace counted a mismatch. *)
Definition found_mismatch (tr : list event) : bool :=
  existsb (fun e => match e with
                    | EvVerified _ n => n >? 0
                    | _ => false
                    end) tr.

(** The final banners. *)
Definition is_failure_banner (e : event) : bool :=
  match e with
  | EvFailure _ => true
  | _ => false
  end.

(** The failure banner is not printed. *)
Definition no_failure_banner (tr : list event) : bool :=
  forallb (fun e => negb (is_failure_banner e)) tr.

(** *** Timing discipline *)

(** Where a trace stands with respect to the tick counter. *)
Inductive timing : Type :=
| Idle          (* counter stopped, no transfer under way *)
| Started       (* counter reset and started *)
| Transferred   (* one transfer done since the start *)
| Broken.       (* the discipline was not respected *)

Definition timing_step (t : timing) (e : event) : timing :=
  match t, e with
  | Broken, _ => Broken
  | Idle, EvCounterEnabled _ true => Started
  | Started, EvFlashWrite _ _ _ _ _ => Transferred
  | Started, EvFlashRead _ _ _ _ _ => Transferred
  | Transferred, EvCounterEnabled _ false => Idle
  | _, EvCounterEnabled _ _ => Broken
  | _, EvFlashWrite _ _ _ _ _ => Broken
  | _, EvFlashRead _ _ _ _ _ => Broken
  | Idle, _ => Idle
  | _, _ => Broken
  end.

Definition timing_of (tr : list event) : timing :=
  fold_left timing_step tr Idle.

(** The initialisation of the flash answers an error. *)
Definition dead_flash_world : world :=
  {| flash_original_32 := 1 :: repeat 0 255;
     init_status := FLASH_ERROR 1;
     write_status := fun _ _ => FLASH_OK;
     write_ticks := fun _ len => 100 + len;
     read_result := fun _ _ d => (FLASH_OK, d);
     read_ticks := fun _ len => 50 + len;
     timer_after_init := idle_timer |}.

End RunSpec.

(** * Verified properties *)

(** ** Facts about machine integers *)

Module CIntFacts.
Import CInt.

Lemma u32_range x : 0 <= u32 x < 2 ^ 32.
Proof. unfold u32. apply Z.mod_pos_bound. reflexivity. Qed.

Lemma u32_small x : 0 <= x < 2 ^ 32 -> u32 x = x.
Proof. intros H. unfold u32. now apply Z.mod_small. Qed.

Lemma u16_small x : 0 <= x < 2 ^ 16 -> u16 x = x.
Proof. intros H. unfold u16. now apply Z.mod_small. Qed.

Lemma mask_byte0 : 0xff = Z.ones 8.
Proof. reflexivity. Qed.

Lemma mask_byte1 : 0xff00 = Z.shiftl (Z.ones 8) 8.
Proof. reflexivity. Qed.

Lemma mask_byte2 : 0xff0000 = Z.shiftl (Z.ones 8) 16.
Proof. reflexivity. Qed.

(** Copying [n] bytes into a zeroed word keeps the [n] low bytes of the
    source and leaves the others zero. *)
Lemma memcpy_u32_zero w n :
  (n <= 4)%nat ->
  memcpy_u32 0 w n = w mod 2 ^ (8 * Z.of_nat n).
Proof.
  intros Hn.
  assert (Hcases : n = 0%nat \/ n = 1%nat \/ n = 2%nat \/ n = 3%nat
                   \/ n = 4%nat) by lia.
  destruct Hcases as [-> | [-> | [-> | [-> | ->]]]];
    cbv [memcpy_u32 bytes_of_u32 u32_of_bytes firstn skipn app fold_right];
    change (0 mod 256) with 0; change (0 / 2 ^ 8) with 0;
    change (0 / 2 ^ 16) with 0; change (0 / 2 ^ 24) with 0;
    cbn [Z.of_nat Pos.of_succ_nat Pos.succ];
    change (8 * 0) with 0; change (8 * 1) with 8; change (8 * 2) with 16;
    change (8 * 3) with 24; change (8 * 4) with 32;
    change (2 ^ 0) with 1; change (2 ^ 8) with 256;
    change (2 ^ 16) with 65536; change (2 ^ 24) with 16777216;
    change (2 ^ 32) with 4294967296;
    Z.to_euclidean_division_equations; lia.
Qed.

(** The bytes copied are all that matters of the source. *)
Lemma memcpy_u32_prefix dst w w' n :
  firstn n (bytes_of_u32 w) = firstn n (bytes_of_u32 w') ->
  memcpy_u32 dst w n = memcpy_u32 dst w' n.
Proof. intros H. unfold memcpy_u32. now rewrite H. Qed.

End CIntFacts.

(** ** Fast Read Quad I/O example *)

Module QuadIOFacts.
Import CInt CIntFacts QuadIO.

Ltac decide_ltb :=
  repeat match goal with
    | |- context [?x <? ?y] =>
        first [ rewrite (proj2 (Z.ltb_lt x y)) by lia
              | rewrite (proj2 (Z.ltb_ge x y)) by lia ]
    end.

Ltac split_byte_lane n :=
  destruct (Z.ltb_spec n 8);
  [ | destruct (Z.ltb_spec n 16); [ | destruct (Z.ltb_spec n 24) ] ].

(** Bit [n] of the reversed address: the low and the high byte lanes are
    exchanged, the middle one stays, nothing lies above bit 23. *)
Lemma REVERT_24b_ADDR_testbit a n :
  0 <= n ->
  Z.testbit (REVERT_24b_ADDR a) n =
    if n <? 8 then Z.testbit a (n + 16)
    else if n <? 16 then Z.testbit a n
    else if n <? 24 then Z.testbit a (n - 16)
    else false.
Proof.
  intros Hn. unfold REVERT_24b_ADDR, u32.
  rewrite mask_byte0, mask_byte1, mask_byte2.
  rewrite !Z.lor_spec, Z.shiftr_spec, !Z.land_spec by assumption.
  rewrite !Z.testbit_mod_pow2 by lia.
  rewrite !Z.shiftl_spec by lia.
  rewrite Z.land_spec, Z.testbit_mod_pow2 by lia.
  split_byte_lane n.
  all: repeat match goal with
         | |- context [Z.testbit (Z.ones 8) ?m] =>
             first [ rewrite (Z.ones_spec_low 8 m) by lia
                   | rewrite (Z.ones_spec_high 8 m) by lia
                   | rewrite (Z.testbit_neg_r _ m) by lia ]
         | |- context [?x <? ?y] =>
             first [ rewrite (proj2 (Z.ltb_lt x y)) by lia
                   | rewrite (proj2 (Z.ltb_ge x y)) by lia ]
         | |- context [Z.testbit ?b ?m] =>
             rewrite (Z.testbit_neg_r b m) by lia
         end; simpl;
    rewrite ?andb_true_r, ?andb_false_r, ?orb_false_r, ?orb_false_l,
      ?Z.add_simpl_r; try reflexivity.
Qed.

Lemma testbit_above_24 a n :
  0 <= a < 2 ^ 24 -> 24 <= n -> Z.testbit a n = false.
Proof.
  intros Ha Hn. destruct (Z.eq_dec a 0) as [-> | Hnz].
  - apply Z.bits_0.
  - apply Z.bits_above_log2; [lia|].
    assert (Z.log2 a < 24) by (apply Z.log2_lt_pow2; lia). lia.
Qed.

(** C7. Reversing the bytes of a 24-bit address twice gives the address
    back: [REVERT_24b_ADDR (REVERT_24b_ADDR a) = a] for every
    [a < 2^24]. *)
Theorem REVERT_24b_ADDR_involutive a :
  0 <= a < 2 ^ 24 ->
  REVERT_24b_ADDR (REVERT_24b_ADDR a) = a.
Proof.
  intros Ha. apply Z.bits_inj'. intros n Hn.
  rewrite REVERT_24b_ADDR_testbit by assumption.
  split_byte_lane n; rewrite ?REVERT_24b_ADDR_testbit by lia; decide_ltb.
  - f_equal; lia.
  - reflexivity.
  - f_equal; lia.
  - symmetry. now apply testbit_above_24.
Qed.

Lemma REVERT_24b_ADDR_involutive_witness :
  0 <= 0x123456 < 2 ^ 24 /\
  REVERT_24b_ADDR 0x123456 = 0x563412 /\
  REVERT_24b_ADDR (REVERT_24b_ADDR 0x123456) = 0x123456.
Proof.
  split; [ split; [ lia | reflexivity ] | ].
  split; [ reflexivity | ].
  apply (REVERT_24b_ADDR_involutive 0x123456).
  split; [ lia | reflexivity ].
Defined.

(** *** Clock divider *)

Lemma FLASH_CLK_MAX_HZ_value : FLASH_CLK_MAX_HZ = 133000000.
Proof. reflexivity. Qed.

(** Shape of the truncated divider: with [q] the quotient of the core
    clock by the maximal flash clock, it is [(q - 2) / 2], and no
    conversion wraps. *)
Lemma clk_div_trunc_shape core_clk :
  0 <= core_clk < 2 ^ 32 ->
  FLASH_CLK_MAX_HZ < core_clk / 2 ->
  exists q r k,
    core_clk = FLASH_CLK_MAX_HZ * q + r /\
    0 <= r < FLASH_CLK_MAX_HZ /\
    2 <= q <= 32 /\
    (q = 2 * k + 2 \/ q = 2 * k + 3) /\
    clk_div_trunc core_clk = k.
Proof.
  intros Hc Hlt. unfold clk_div_trunc. rewrite FLASH_CLK_MAX_HZ_value in *.
  change (2 ^ 32) with 4294967296 in *.
  set (M := 133000000) in *.
  pose proof (Z.div_mod core_clk M ltac:(discriminate)) as Hdm.
  pose proof (Z.mod_pos_bound core_clk M ltac:(reflexivity)) as Hr.
  set (q := core_clk / M) in *. set (r := core_clk mod M) in *.
  pose proof (Z.div_mod core_clk 2 ltac:(discriminate)) as Hd2.
  pose proof (Z.mod_pos_bound core_clk 2 ltac:(reflexivity)) as Hr2.
  assert (Hq : 2 <= q <= 32) by (subst M; lia).
  pose proof (Z.div_mod (q - 2) 2 ltac:(discriminate)) as Hk.
  pose proof (Z.mod_pos_bound (q - 2) 2 ltac:(reflexivity)) as Hrk.
  exists q, r, ((q - 2) / 2).
  repeat split; try lia.
  rewrite (u32_small q) by (change (2 ^ 32) with 4294967296; lia).
  rewrite (u32_small (q - 2)) by (change (2 ^ 32) with 4294967296; lia).
  apply u16_small. change (2 ^ 16) with 65536. lia.
Qed.

(** C10. Whenever the maximal flash clock is below half the core
    clock, the divider computed by [main] (truncated quotient, then at
    most one increment) keeps the SPI clock
    [core_clk / (2 + 2 * clk_div)] at or below [FLASH_CLK_MAX_HZ]. *)
Theorem clk_div_respects_flash_max core_clk :
  0 <= core_clk < 2 ^ 32 ->
  FLASH_CLK_MAX_HZ < core_clk / 2 ->
  spi_clk core_clk (compute_clk_div core_clk) <= FLASH_CLK_MAX_HZ /\
  (compute_clk_div core_clk = clk_div_trunc core_clk \/
   compute_clk_div core_clk = clk_div_trunc core_clk + 1).
Proof.
  intros Hc Hlt.
  destruct (clk_div_trunc_shape core_clk Hc Hlt)
    as (q & r & k & Hcc & Hr & Hq & Hk & Htr).
  unfold compute_clk_div. rewrite (proj2 (Z.ltb_lt _ _) Hlt). rewrite Htr.
  destruct (Z.ltb_spec FLASH_CLK_MAX_HZ (spi_clk core_clk k)) as [Hgt | Hle].
  - rewrite (u16_small (k + 1)) by (change (2 ^ 16) with 65536; lia).
    split; [ | right; reflexivity ].
    unfold spi_clk.
    rewrite u32_small by (change (2 ^ 32) with 4294967296; lia).
    apply Z.lt_succ_r. apply Z.div_lt_upper_bound; [ lia | ].
    rewrite FLASH_CLK_MAX_HZ_value in *. lia.
  - split; [ assumption | left; reflexivity ].
Qed.

Lemma clk_div_respects_flash_max_witness :
  spi_clk 1000000000 (compute_clk_div 1000000000) <= FLASH_CLK_MAX_HZ /\
  compute_clk_div 1000000000 = 3.
Proof.
  split; [ | reflexivity ].
  apply (clk_div_respects_flash_max 1000000000).
  - split; [ lia | reflexivity ].
  - reflexivity.
Defined.

(** *** Chip-select hold across the transaction *)

Lemma fast_read_quadio_segments read_byte_cmd :
  segments (fast_read_quadio read_byte_cmd) =
    [cmd_read; cmd_address; dummy_clocks_cmd] ++ [cmd_read_rx].
Proof. reflexivity. Qed.

(** C8. The Fast Read Quad I/O transaction issues its segments in the
    order opcode, address, dummy clocks, data; every segment before the
    last one is issued with [csaat] set, and the last one, the data
    phase, with [csaat] cleared. *)
Theorem fast_read_quadio_csaat read_byte_cmd prior last :
  segments (fast_read_quadio read_byte_cmd) = prior ++ [last] ->
  Forall (fun c => csaat c = true) prior /\
  csaat last = false /\
  map direction prior = [kSpiDirTxOnly; kSpiDirTxOnly; kSpiDirDummy] /\
  map speed prior = [kSpiSpeedStandard; kSpiSpeedQuad; kSpiSpeedQuad] /\
  direction last = kSpiDirRxOnly.
Proof.
  rewrite fast_read_quadio_segments. intros Heq.
  apply app_inj_tail in Heq. destruct Heq as [<- <-].
  split; [ repeat constructor | ].
  repeat split.
Qed.

Lemma fast_read_quadio_csaat_witness :
  Forall (fun c => csaat c = true) [cmd_read; cmd_address; dummy_clocks_cmd]
  /\ csaat cmd_read_rx = false.
Proof.
  destruct (fast_read_quadio_csaat 0xFF563412
              [cmd_read; cmd_address; dummy_clocks_cmd] cmd_read_rx
              eq_refl) as (Hprior & Hlast & _).
  split; [ exact Hprior | exact Hlast ].
Defined.

(** When the example returns, its exit code tells whether the eight
    words read back equal the reference. *)
Lemma main_exit_code e code :
  (spimemio e && USE_SPI_FLASH e) = false ->
  fst (main e) = Some code ->
  (code = EXIT_SUCCESS <->
   count_errors (flash_data e) (flash_original e) = 0).
Proof.
  intros Hmode. unfold main. rewrite Hmode.
  destruct (issue _ _ _) as [calls through].
  destruct through; cbn [negb]; [ | discriminate ].
  destruct (past_loop _); cbn [negb]; [ | discriminate ].
  destruct (Z.eqb_spec (count_errors (flash_data e) (flash_original e)) 0)
    as [Heq | Hne]; cbn [fst]; intros [= <-]; split; intros H;
    try assumption; try reflexivity; try discriminate; contradiction.
Qed.

End QuadIOFacts.

(** ** Verification of the data read back *)

Module VerificationFacts.
Import CInt CIntFacts Profiling ProfilingSpec.

Lemma quot4_div i : 0 <= i -> Z.quot i 4 = i / 4.
Proof. intros H. apply Z.quot_div_nonneg; lia. Qed.

Lemma rem4_mod i : 0 <= i -> Z.rem i 4 = i mod 4.
Proof. intros H. apply Z.rem_mod_nonneg; lia. Qed.

(** The bound of the inner loop is [ceil(i/4)]. *)
Lemma check_bound_ceil i : 0 <= i -> check_bound i = ceil_div4 i.
Proof.
  intros H. unfold check_bound, ceil_div4.
  rewrite quot4_div, rem4_mod by assumption.
  destruct (Z.eqb_spec (i mod 4) 0);
    Z.to_euclidean_division_equations; lia.
Qed.

(** One round of the loop counts the index exactly when the actual word
    differs from the reference of the specification. *)
Lemma check_word_spec i a e j errs printed :
  0 <= i ->
  check_word i a e j (errs, printed) =
    if differs i a e j
    then (u32 (errs + 1), printed ++ [mismatch_line i a e j])
    else (errs, printed).
Proof.
  intros Hi. unfold check_word, differs, mismatch_line, spec_reference.
  rewrite quot4_div, rem4_mod by assumption.
  destruct (Z.ltb_spec j (i / 4)); [ reflexivity | ].
  rewrite memcpy_u32_zero, Z2Nat.id.
  - reflexivity.
  - apply Z.mod_pos_bound; lia.
  - pose proof (Z.mod_pos_bound i 4 ltac:(lia)). lia.
Qed.

Lemma check_loop_spec i a e n : 
  0 <= i ->
  forall k errs printed,
    0 <= errs -> errs + Z.of_nat n < 2 ^ 32 ->
    let idx := map Z.of_nat (seq k n) in
    check_loop n i a e (Z.of_nat k) (errs, printed) =
      (Z.of_nat (k + n),
       errs + Z.of_nat (length (filter (differs i a e) idx)),
       printed ++ map (mismatch_line i a e) (filter (differs i a e) idx)).
Proof.
  intros Hi. induction n as [ | n IH ]; intros k errs printed He Hb idx.
  - simpl. rewrite Nat.add_0_r, Z.add_0_r, app_nil_r. reflexivity.
  - subst idx. cbn [check_loop seq map filter].
    rewrite check_word_spec by assumption.
    replace (Z.of_nat k + 1) with (Z.of_nat (S k)) by lia.
    pose proof (filter_length_le (differs i a e) (map Z.of_nat (seq (S k) n))) as Hle.
    rewrite length_map, length_seq in Hle.
    destruct (differs i a e (Z.of_nat k)).
    + rewrite IH.
      * rewrite u32_small by lia. cbn [length map].
        rewrite <- app_assoc. cbn [app].
        f_equal. f_equal; lia.
      * apply u32_range.
      * rewrite u32_small by lia. lia.
    + rewrite IH by lia. f_equal. f_equal. lia.
Qed.

(** The verification loop computes what the specification says. *)
Lemma check_read_refines L actual expected :
  1 <= L <= 1024 ->
  check_read L actual expected =
    (ceil_div4 L,
     Z.of_nat (length (spec_mismatches L actual expected)),
     map (mismatch_line L actual expected)
         (spec_mismatches L actual expected)) /\
  length (word_indices L) = Z.to_nat (ceil_div4 L).
Proof.
  intros HL. 
  assert (Hc : 0 <= ceil_div4 L <= 256).
  { unfold ceil_div4. Z.to_euclidean_division_equations; lia. }
  split.
  - unfold check_read. rewrite check_bound_ceil by lia.
    change 0 with (Z.of_nat 0) at 1.
    rewrite check_loop_spec;
      [ | lia | lia
        | rewrite Z2Nat.id by lia; change (2 ^ 32) with 4294967296; lia ].
    unfold spec_mismatches, word_indices. cbn [app Nat.add].
    rewrite Z2Nat.id by lia. reflexivity.
  - unfold word_indices. now rewrite length_map, length_seq.
Qed.

(** C3. For every length [L] in [1, 1024] the verification visits the
    [ceil(L/4)] word indices [0 .. ceil(L/4) - 1] (the loop counter ends
    at [ceil(L/4)]); each index below [L/4] is compared on the full
    32-bit word, the final partial one against the [L mod 4] valid
    bytes of the expected word copied into a zeroed word; the count
    returned is the number of indices whose comparison differs, and one
    line is printed for each of them. *)
Theorem check_read_spec L actual expected :
  1 <= L <= 1024 ->
  check_read L actual expected =
    (ceil_div4 L,
     Z.of_nat (length (spec_mismatches L actual expected)),
     map (mismatch_line L actual expected)
         (spec_mismatches L actual expected)) /\
  length (word_indices L) = Z.to_nat (ceil_div4 L).
Proof.
  intros HL. exact (check_read_refines L actual expected HL).
Qed.

Lemma check_read_spec_witness :
  check_read 6 [0x11223344; 0xFFFF6655] [0x11223344; 0x88776655] =
    (2, 1, [EvMismatch 6 1 0xFFFF6655 0x6655]) /\
  spec_mismatches 6 [0x11223344; 0xFFFF6655] [0x11223344; 0x88776655] = [1].
Proof.
  split; [ | reflexivity ].
  rewrite (proj1 (check_read_spec 6 [0x11223344; 0xFFFF6655]
                                  [0x11223344; 0x88776655]
                                  ltac:(lia))).
  reflexivity.
Defined.

Lemma word_indices_range L j :
  0 <= L -> In j (word_indices L) -> 0 <= j < ceil_div4 L.
Proof.
  intros HL Hin. unfold word_indices in Hin.
  apply in_map_iff in Hin. destruct Hin as (k & <- & Hk).
  apply in_seq in Hk.
  assert (0 <= ceil_div4 L)
    by (unfold ceil_div4; Z.to_euclidean_division_equations; lia).
  lia.
Qed.

Lemma spec_reference_same L e e' j :
  0 <= L -> same_first_bytes L e e' -> 0 <= j <= L / 4 ->
  spec_reference L e j = spec_reference L e' j.
Proof.
  intros HL [Hfull Hlast] Hj. unfold spec_reference.
  destruct (Z.ltb_spec j (L / 4)) as [Hlt | Hge].
  - apply Hfull. lia.
  - assert (j = L / 4) as -> by lia.
    pose proof (Z.mod_pos_bound L 4 ltac:(lia)) as Hm.
    rewrite <- (Z2Nat.id (L mod 4)) by lia.
    rewrite <- !memcpy_u32_zero by lia.
    now apply memcpy_u32_prefix.
Qed.

Lemma ceil_div4_last L j :
  0 <= L -> 0 <= j < ceil_div4 L -> 0 <= j <= L / 4.
Proof.
  unfold ceil_div4. intros HL Hj.
  Z.to_euclidean_division_equations. lia.
Qed.

(** For a length [L] that is not a multiple of 4, the reference of the
    final partial word is made of the [L mod 4] valid bytes of the
    expected buffer only: changing the remaining bytes of the expected
    buffer never changes the mismatch count.  The actual word is
    compared in full with that zero-padded reference: the final index
    counts as a mismatch exactly when the whole actual word differs from
    it. *)
Lemma trailing_expected_bytes_ignored L actual expected expected' :
  1 <= L <= 1024 ->
  L mod 4 <> 0 ->
  same_first_bytes L expected expected' ->
  let last_bytes := word_at expected (L / 4) mod 2 ^ (8 * (L mod 4)) in
  mismatch_count L actual expected = mismatch_count L actual expected' /\
  (In (EvMismatch L (L / 4) (word_at actual (L / 4)) last_bytes)
      (snd (check_read L actual expected)) <->
   word_at actual (L / 4) <> last_bytes).
Proof.
  intros HL Hpart Hsame last_bytes.
  assert (Hext : forall j, In j (word_indices L) ->
            differs L actual expected j = differs L actual expected' j).
  { intros j Hin. unfold differs.
    rewrite (spec_reference_same L expected expected' j); try lia;
      try assumption.
    apply ceil_div4_last; [ lia | ].
    apply word_indices_range; [ lia | assumption ]. }
  unfold mismatch_count.
  rewrite (proj1 (check_read_refines L actual expected HL)).
  rewrite (proj1 (check_read_refines L actual expected' HL)).
  cbn [fst snd]. split.
  - unfold spec_mismatches. now rewrite (filter_ext_in _ _ _ Hext).
  - assert (Hline : mismatch_line L actual expected (L / 4) =
                    EvMismatch L (L / 4) (word_at actual (L / 4)) last_bytes).
    { unfold mismatch_line, spec_reference. now rewrite Z.ltb_irrefl. }
    assert (Hin : In (L / 4) (word_indices L)).
    { unfold word_indices. apply in_map_iff.
      exists (Z.to_nat (L / 4)). split.
      - apply Z2Nat.id. Z.to_euclidean_division_equations; lia.
      - apply in_seq. unfold ceil_div4.
        Z.to_euclidean_division_equations; lia. }
    assert (Hdiff : differs L actual expected (L / 4) = true <->
                    word_at actual (L / 4) <> last_bytes).
    { unfold differs, spec_reference. rewrite Z.ltb_irrefl.
      now rewrite negb_true_iff, Z.eqb_neq. }
    rewrite <- Hline, in_map_iff. unfold spec_mismatches. split.
    + intros (k & Hk & Hkin). apply filter_In in Hkin.
      unfold mismatch_line in Hk. injection Hk as Hk _. subst k.
      apply Hdiff. tauto.
    + intros Hne. exists (L / 4). split; [ reflexivity | ].
      apply filter_In. split; [ exact Hin | now apply Hdiff ].
Qed.

Lemma trailing_expected_bytes_ignored_witness :
  mismatch_count 5 [0x11223344; 0x00000055] [0x11223344; 0xAABBCC55] =
  mismatch_count 5 [0x11223344; 0x00000055] [0x11223344; 0x00000055].
Proof.
  apply (trailing_expected_bytes_ignored 5).
  - lia.
  - discriminate.
  - split; [ | reflexivity ].
    intros j Hj. assert (j = 0) as -> by (change (5 / 4) with 1 in Hj; lia).
    reflexivity.
Defined.

(** The bytes of the actual word beyond the length are compared too:
    for [L = 1] two read-back buffers with the same first byte,
    differing in the last byte of the word only, get different mismatch
    counts. *)
Lemma trailing_actual_bytes_compared :
  ~ (forall L actual actual' expected,
        1 <= L <= 1024 ->
        L mod 4 <> 0 ->
        same_first_bytes L actual actual' ->
        mismatch_count L actual expected =
        mismatch_count L actual' expected).
Proof.
  intros H.
  specialize (H 1 [0x00000041] [0xFF000041] [0x00000041]).
  assert (Hsame : same_first_bytes 1 [0x00000041] [0xFF000041]).
  { split; [ | reflexivity ].
    intros j Hj. change (1 / 4) with 0 in Hj. lia. }
  specialize (H ltac:(lia) ltac:(discriminate) Hsame).
  vm_compute in H. discriminate H.
Qed.

End VerificationFacts.


(** ** The profiling run *)

Module RunFacts.
Import CInt CIntFacts Profiling ProfilingSpec VerificationFacts.

(** After a reset and a start, the counter holds the ticks that
    elapsed, as a 64-bit value. *)
Lemma counter_after_reset n :
  counter_value
    (timer_tick n {| v_lower0 := u32 0; v_upper0 := u32 0;
                     counting := true |}) = u64 n.
Proof.
  unfold timer_tick, counter_value. cbn [counting v_upper0 v_lower0].
  change (u32 0) with 0. change (0 * 2 ^ 32 + 0) with 0.
  change (u64 0) with 0. rewrite Z.add_0_l.
  set (v := u64 n).
  rewrite (Z.mul_comm (v / 2 ^ 32)), <- Z.div_mod by discriminate.
  unfold v, u64. apply Z.mod_mod. discriminate.
Qed.

(** The same once the counter is stopped. *)
Lemma counter_after_stop n en :
  let t := timer_tick n {| v_lower0 := u32 0; v_upper0 := u32 0;
                           counting := true |} in
  counter_value {| v_lower0 := v_lower0 t; v_upper0 := v_upper0 t;
                   counting := en |} = u64 n.
Proof. intros t. subst t. now rewrite <- (counter_after_reset n). Qed.

(** A stopped counter that was reset stays at zero. *)
Lemma counter_stopped_reset n lo hi :
  counter_value
    (timer_tick n (write_upper0 0 (write_lower0 0
       {| v_lower0 := lo; v_upper0 := hi; counting := false |}))) = 0.
Proof. reflexivity. Qed.

Lemma trace_cons {A} (e : A) l :
  rev_append (e :: l) [] = rev_append l [] ++ [e].
Proof. cbn [rev_append]. now rewrite !rev_append_rev, app_nil_r. Qed.

Lemma trace_rev_append {A} (es l : list A) :
  rev_append (rev_append es l) [] = rev_append l [] ++ es.
Proof.
  rewrite !rev_append_rev, !app_nil_r, rev_app_distr, rev_involutive.
  reflexivity.
Qed.

(** *** Running the statements one at a time *)

Lemma bind_next {A B} (c : M A) (k : A -> M B) s a s' :
  c s = Next a s' -> bind c k s = k a s'.
Proof. intros H. unfold bind. now rewrite H. Qed.

Lemma reset_timer_run h s :
  reset_timer h s =
    Next tt {| flash_data_32 := flash_data_32 s;
               timer_0_1 := write_upper0 0 (write_lower0 0 (timer_0_1 s));
               errors := errors s; flag := flag s;
               log := EvWriteUpper0 h 0 :: EvWriteLower0 h 0 :: log s |}.
Proof. reflexivity. Qed.

Lemma set_enabled_run h en s :
  rv_timer_counter_set_enabled h en s =
    Next tt {| flash_data_32 := flash_data_32 s;
               timer_0_1 := {| v_lower0 := v_lower0 (timer_0_1 s);
                               v_upper0 := v_upper0 (timer_0_1 s);
                               counting := en |};
               errors := errors s; flag := flag s;
               log := EvCounterEnabled h en :: log s |}.
Proof. reflexivity. Qed.

Lemma counter_read_run h s :
  rv_timer_counter_read h s =
    Next (counter_value (timer_0_1 s))
         {| flash_data_32 := flash_data_32 s; timer_0_1 := timer_0_1 s;
            errors := errors s; flag := flag s;
            log := EvCounterRead h (counter_value (timer_0_1 s)) :: log s |}.
Proof. reflexivity. Qed.

Lemma write_run w sp len s :
  w25q128jw_write w sp len s =
    Next (write_status w sp len)
         {| flash_data_32 := flash_data_32 s;
            timer_0_1 := timer_tick (write_ticks w sp len) (timer_0_1 s);
            errors := errors s; flag := flag s;
            log := write_event w sp len :: log s |}.
Proof. reflexivity. Qed.

Lemma read_run w sp len s :
  w25q128jw_read w sp len s =
    Next (fst (read_result w sp len (flash_data_32 s)))
         {| flash_data_32 := snd (read_result w sp len (flash_data_32 s));
            timer_0_1 := timer_tick (read_ticks w sp len) (timer_0_1 s);
            errors := errors s; flag := flag s;
            log := read_event w sp len (flash_data_32 s) :: log s |}.
Proof. reflexivity. Qed.

Lemma emit_run e s :
  emit e s =
    Next tt {| flash_data_32 := flash_data_32 s; timer_0_1 := timer_0_1 s;
               errors := errors s; flag := flag s; log := e :: log s |}.
Proof. reflexivity. Qed.

Lemma emit_all_run es s :
  emit_all es s =
    Next tt {| flash_data_32 := flash_data_32 s; timer_0_1 := timer_0_1 s;
               errors := errors s; flag := flag s;
               log := rev_append es (log s) |}.
Proof. reflexivity. Qed.

Lemma get_flash_data_run s : get_flash_data s = Next (flash_data_32 s) s.
Proof. reflexivity. Qed.

Ltac run_with lem :=
  erewrite bind_next by (apply lem);
  cbv beta;
  cbn [flash_data_32 timer_0_1 errors flag log v_lower0 v_upper0 counting
       write_lower0 write_upper0].

(** Reset, start, operation, stop: the first half of an iteration, up
    to the test of the status. *)
Ltac run_timed op_run :=
  run_with reset_timer_run;
  run_with set_enabled_run;
  run_with op_run;
  run_with set_enabled_run.

(** What one iteration does: its events, that the [errors] of [main]
    is left alone, and how it ends. *)
Lemma profile_iteration_run w sp i s :
  exists s',
    profile_iteration w sp i tt s =
      (if is_error (write_status w sp i)
          || is_error (fst (read_result w sp i (flash_data_32 s)))
       then Return EXIT_FAILURE s'
       else Next tt s') /\
    trace s' = trace s ++ iteration_events w sp i (flash_data_32 s) /\
    errors s' = errors s.
Proof.
  unfold profile_iteration, iteration_events, verification_events,
    mismatch_count, trace, kRvTimerEnabled, kRvTimerDisabled.
  run_timed write_run.
  destruct (is_error (write_status w sp i)) eqn:Ew.
  - eexists. split; [ reflexivity | ]. cbn [log errors].
    rewrite !trace_cons, <- !app_assoc, app_nil_r. auto.
  - run_with counter_read_run. run_with emit_run.
    run_timed read_run.
    destruct (is_error (fst (read_result w sp i (flash_data_32 s)))) eqn:Er.
    + eexists. split; [ reflexivity | ]. cbn [log errors].
      rewrite !counter_after_stop, !trace_cons, <- !app_assoc, app_nil_r.
      auto.
    + run_with counter_read_run. run_with emit_run.
      run_with get_flash_data_run.
      destruct (check_read i (snd (read_result w sp i (flash_data_32 s)))
                           (flash_original_32 w))
        as [[j errs] printed] eqn:Ec.
      run_with emit_all_run. run_with emit_run.
      rewrite !counter_after_stop.
      destruct (errs >? 0); eexists; (split; [ reflexivity | ]);
        cbn [log errors fst snd orb];
        rewrite trace_cons, trace_rev_append, !trace_cons, <- !app_assoc;
        auto.
Qed.

(** Lines printed by the verification are mismatch reports only. *)
Lemma check_word_printed i a e j errs printed :
  exists more,
    snd (check_word i a e j (errs, printed)) = printed ++ more /\
    forallb is_mismatch more = true.
Proof.
  unfold check_word.
  destruct (j <? Z.quot i 4);
    match goal with |- context [negb ?c] => destruct c end; cbn [negb snd];
    first [ exists []; split; [ now rewrite app_nil_r | reflexivity ]
          | eexists [_]; split; reflexivity ].
Qed.

Lemma check_loop_printed n : forall i a e j acc,
  exists more,
    snd (check_loop n i a e j acc) = snd acc ++ more /\
    forallb is_mismatch more = true.
Proof.
  induction n as [ | n IH ]; intros i a e j [errs printed].
  - exists []. split; [ simpl; now rewrite app_nil_r | reflexivity ].
  - cbn [check_loop].
    destruct (check_word_printed i a e j errs printed) as (m1 & H1 & F1).
    destruct (IH i a e (j + 1) (check_word i a e j (errs, printed)))
      as (m2 & H2 & F2).
    exists (m1 ++ m2). split.
    + rewrite H2, H1. cbn [snd]. now rewrite app_assoc.
    + rewrite forallb_app, F1, F2. reflexivity.
Qed.

Lemma check_read_printed i a e :
  forallb is_mismatch (snd (check_read i a e)) = true.
Proof.
  unfold check_read.
  destruct (check_loop_printed (Z.to_nat (check_bound i)) i a e 0 (0, []))
    as (more & Hm & F).
  rewrite Hm. exact F.
Qed.

Lemma mismatch_ok es :
  forallb is_mismatch es = true -> forallb ok_event es = true.
Proof.
  induction es as [ | x es IH ]; [ reflexivity | ].
  cbn [forallb]. intros H. apply andb_true_iff in H. destruct H as [Hx Hes].
  rewrite (IH Hes). destruct x; try discriminate Hx. reflexivity.
Qed.

Lemma mismatch_transfers es :
  forallb is_mismatch es = true -> transfers es = [].
Proof.
  induction es as [ | x es IH ]; [ reflexivity | ].
  cbn [forallb]. intros H. apply andb_true_iff in H. destruct H as [Hx Hes].
  destruct x; try discriminate Hx. cbn [transfers]. exact (IH Hes).
Qed.

Lemma mismatch_verified es :
  forallb is_mismatch es = true -> verified es = [].
Proof.
  induction es as [ | x es IH ]; [ reflexivity | ].
  cbn [forallb]. intros H. apply andb_true_iff in H. destruct H as [Hx Hes].
  destruct x; try discriminate Hx. cbn [verified]. exact (IH Hes).
Qed.

Lemma transfers_app l1 l2 :
  transfers (l1 ++ l2) = transfers l1 ++ transfers l2.
Proof.
  induction l1 as [ | x l1 IH ]; [ reflexivity | ].
  destruct x; cbn [app transfers]; rewrite IH; reflexivity.
Qed.

Lemma verified_app l1 l2 :
  verified (l1 ++ l2) = verified l1 ++ verified l2.
Proof.
  induction l1 as [ | x l1 IH ]; [ reflexivity | ].
  destruct x; cbn [app verified]; rewrite IH; reflexivity.
Qed.

(** The events of one iteration either make a completed iteration, with
    one write, one read and one verification, or stop right after a
    failed call and the counter stop that follows it. *)
Lemma iteration_events_shape w sp i d :
  (is_error (write_status w sp i)
   || is_error (fst (read_result w sp i d)) = false /\
   completed (iteration_events w sp i d) [Write sp i; Read sp i] [i]) \/
  (is_error (write_status w sp i)
   || is_error (fst (read_result w sp i d)) = true /\
   exists oks bad,
     iteration_events w sp i d = oks ++ [bad; timer_stop_event] /\
     forallb ok_event oks = true /\ failed_transfer bad = true).
Proof.
  pose proof (check_read_printed i (snd (read_result w sp i d))
                                 (flash_original_32 w)) as Hp.
  unfold iteration_events.
  destruct (is_error (write_status w sp i)) eqn:Ew.
  - right. split; [ reflexivity | ].
    exists timer_start_events, (write_event w sp i).
    rewrite app_nil_r. split; [ reflexivity | ].
    split; [ reflexivity | exact Ew ].
  - destruct (is_error (fst (read_result w sp i d))) eqn:Er.
    + right. split; [ reflexivity | ].
      exists (timed_write_events w sp i ++ report_write_events w sp i
                ++ timer_start_events), (read_event w sp i d).
      split; [ | split; [ | exact Er ] ].
      * unfold timed_read_events. now rewrite app_nil_r, <- !app_assoc.
      * unfold timed_write_events, write_event. cbn. unfold ok_event. cbn.
        now rewrite Ew.
    + left. split; [ reflexivity | ]. unfold verification_events.
      split; [ | split ].
      * rewrite !forallb_app, (mismatch_ok _ Hp).
        unfold timed_write_events, timed_read_events, write_event,
          read_event.
        cbn. unfold ok_event. cbn. now rewrite Ew, Er.
      * rewrite !transfers_app, (mismatch_transfers _ Hp). reflexivity.
      * rewrite !verified_app, (mismatch_verified _ Hp). reflexivity.
Qed.

(** The loop at one speed, run for [n] rounds from length [i]: either
    all rounds complete, or a driver error ends the loop, and [main],
    with [EXIT_FAILURE]. *)
Lemma for_loop_run w sp n : forall i s,
  exists s' evs,
    trace s' = trace s ++ evs /\
    errors s' = errors s /\
    (n <> O ->
     exists rest, evs = iteration_events w sp i (flash_data_32 s) ++ rest) /\
    ((for_loop n i (profile_iteration w sp) tt s = Next tt s' /\
      completed evs (loop_transfers sp (lengths_from i n))
                (lengths_from i n)) \/
     (for_loop n i (profile_iteration w sp) tt s = Return EXIT_FAILURE s' /\
      aborted w evs)).
Proof.
  induction n as [ | n IH ]; intros i s.
  - exists s, []. rewrite app_nil_r. split; [ reflexivity | ].
    split; [ reflexivity | ]. split; [ congruence | ].
    left. repeat split.
  - assert (Hstep :
              for_loop (S n) i (profile_iteration w sp) tt s =
              match profile_iteration w sp i tt s with
              | Next a s1 => for_loop n (i + 1) (profile_iteration w sp) a s1
              | Return c s1 => Return c s1
              end) by reflexivity.
    rewrite Hstep. clear Hstep.
    destruct (profile_iteration_run w sp i s) as (s1 & Ho & Htr & Herr).
    rewrite Ho.
    destruct (iteration_events_shape w sp i (flash_data_32 s))
      as [[Hgo (Hok & Htrans & Hver)]
         | [Hfail (oks & bad & Heq & Hoks & Hbad)]].
    + rewrite Hgo.
      destruct (IH (i + 1) s1) as (s' & evs & IHtr & IHerr & _ & IHcases).
      exists s', (iteration_events w sp i (flash_data_32 s) ++ evs).
      rewrite IHtr, Htr, app_assoc. split; [ reflexivity | ].
      split; [ congruence | ].
      split; [ intros _; now exists evs | ].
      destruct IHcases
        as [[Hnext (Hall & Hts & Hvs)]
           | [Hret (Hsome & oks & bad & Hevs & Hoks & Hbad)]].
      * left. split; [ exact Hnext | ]. split; [ | split ].
        -- now rewrite forallb_app, Hok, Hall.
        -- rewrite transfers_app, Htrans, Hts. reflexivity.
        -- rewrite verified_app, Hver, Hvs. reflexivity.
      * right. split; [ exact Hret | ]. split; [ exact Hsome | ].
        exists (iteration_events w sp i (flash_data_32 s) ++ oks), bad.
        rewrite Hevs, <- app_assoc. split; [ reflexivity | ].
        split; [ now rewrite forallb_app, Hok, Hoks | exact Hbad ].
    + rewrite Hfail.
      exists s1, (iteration_events w sp i (flash_data_32 s)).
      split; [ exact Htr | ]. split; [ exact Herr | ].
      split; [ intros _; exists []; now rewrite app_nil_r | ].
      right. split; [ reflexivity | ].
      split; [ exists sp, i, (flash_data_32 s); exact Hfail | ].
      exists oks, bad. auto.
Qed.

(** [main], statement by statement. *)
Lemma main_body_unfold w :
  main_body w initial_state =
    if is_error (init_status w)
    then Return EXIT_FAILURE
           {| flash_data_32 := flash_data_32 initial_state;
              timer_0_1 := timer_0_1 initial_state;
              errors := 0; flag := 0; log := [EvFlashInit (init_status w)] |}
    else
      match profile_loop w Standard (after_init w) with
      | Return c s => Return c s
      | Next _ s2 =>
          match profile_loop w Quad s2 with
          | Return c s => Return c s
          | Next _ s3 => finish s3
          end
      end.
Proof.
  unfold main_body, finish, after_init, w25q128jw_init, init_timer,
    get_errors, bind, emit, set_timer, ret, return_.
  cbn -[profile_loop initial_state].
  destruct (is_error (init_status w)); [ reflexivity | ].
  destruct (profile_loop w Standard _) as [ [] s2 | c s2 ]; [ | reflexivity ].
  destruct (profile_loop w Quad s2) as [ [] s3 | c s3 ]; [ | reflexivity ].
  destruct (errors s3 =? 0); reflexivity.
Qed.

(** The three ways a run can go: the initialisation of the flash
    fails; both loops complete, and the exit code is [EXIT_SUCCESS]; a
    write or a read fails, and the run stops there with
    [EXIT_FAILURE]. *)
Lemma main_run w :
  (is_error (init_status w) = true /\
   main w = (EXIT_FAILURE, [EvFlashInit (init_status w)])) \/
  (is_error (init_status w) = false /\
   exists evs,
     (exists rest,
        evs = iteration_events w Standard 1 (flash_data_32 initial_state)
              ++ rest) /\
     ((main w =
        (EXIT_SUCCESS,
         [EvFlashInit (init_status w); EvTimerInit] ++ evs ++ [EvSuccess]) /\
      completed evs (full_loop Standard ++ full_loop Quad)
                (all_lengths ++ all_lengths)) \/
     (main w =
        (EXIT_FAILURE, [EvFlashInit (init_status w); EvTimerInit] ++ evs) /\
      aborted w evs))).
Proof.
  unfold main. rewrite main_body_unfold.
  destruct (is_error (init_status w)) eqn:Ei; [ left; auto | right ].
  split; [ reflexivity | ].
  unfold profile_loop.
  change (Z.to_nat (MAX_TEST_BUF_LEN - 1 + 1))
    with (Z.to_nat MAX_TEST_BUF_LEN).
  destruct (for_loop_run w Standard (Z.to_nat MAX_TEST_BUF_LEN) 1
                         (after_init w))
    as (s2 & evs1 & Htr1 & Herr1 & Hfirst & Hc1).
  assert (Hpre : exists rest,
             evs1 = iteration_events w Standard 1
                      (flash_data_32 initial_state) ++ rest)
    by (apply Hfirst; discriminate).
  clear Hfirst. destruct Hpre as (rest1 & Hpre).
  assert (Htr0 : trace (after_init w)
                 = [EvFlashInit (init_status w); EvTimerInit])
    by reflexivity.
  destruct Hc1 as [[Ho1 (Hok1 & Hts1 & Hvs1)] | [Ho1 Hab1]]; rewrite Ho1.
  - destruct (for_loop_run w Quad (Z.to_nat MAX_TEST_BUF_LEN) 1 s2)
      as (s3 & evs2 & Htr2 & Herr2 & _ & Hc2).
    destruct Hc2 as [[Ho2 (Hok2 & Hts2 & Hvs2)] | [Ho2 Hab2]]; rewrite Ho2.
    + exists (evs1 ++ evs2).
      split; [ exists (rest1 ++ evs2); now rewrite Hpre, <- app_assoc | ].
      left. unfold finish. rewrite Herr2, Herr1. cbn [after_init errors Z.eqb].
      split.
      * f_equal. unfold trace at 1. cbn [log]. rewrite trace_cons.
        fold (trace s3).
        rewrite Htr2, Htr1, Htr0. now rewrite <- !app_assoc.
      * split; [ now rewrite forallb_app, Hok1, Hok2 | ].
        rewrite transfers_app, verified_app, Hts1, Hts2, Hvs1, Hvs2.
        split; reflexivity.
    + exists (evs1 ++ evs2).
      split; [ exists (rest1 ++ evs2); now rewrite Hpre, <- app_assoc | ].
      right. split.
      * f_equal. fold (trace s3).
        rewrite Htr2, Htr1, Htr0. now rewrite <- !app_assoc.
      * destruct Hab2 as (Hsome & oks & bad & Hevs & Hoks & Hbad).
        split; [ exact Hsome | ].
        exists (evs1 ++ oks), bad. rewrite Hevs, <- app_assoc.
        split; [ reflexivity | ].
        split; [ now rewrite forallb_app, Hok1, Hoks | exact Hbad ].
  - exists evs1. split; [ now exists rest1 | ].
    right. split; [ | exact Hab1 ].
    f_equal. fold (trace s2). rewrite Htr1, Htr0. reflexivity.
Qed.

(** *** Consequences *)

Lemma failed_transfer_not_ok e :
  failed_transfer e = true -> ok_event e = false.
Proof.
  destruct e; try discriminate; cbn; unfold ok_event; cbn;
    intros ->; reflexivity.
Qed.

(** The first failed call of a trace is where it says. *)
Lemma first_failure_unique oks bad rest : forall pre ev post,
  forallb ok_event oks = true ->
  forallb ok_event rest = true ->
  ok_event ev = false ->
  oks ++ bad :: rest = pre ++ ev :: post ->
  pre = oks /\ ev = bad /\ post = rest.
Proof.
  induction oks as [ | o oks IH ]; intros pre ev post Hoks Hrest Hev Heq.
  - destruct pre as [ | p pre ]; cbn [app] in Heq.
    + injection Heq as <- <-. auto.
    + injection Heq as _ Hr. rewrite Hr, forallb_app in Hrest.
      cbn [forallb] in Hrest. rewrite Hev in Hrest.
      rewrite andb_false_r in Hrest. discriminate.
  - cbn [forallb] in Hoks. apply andb_true_iff in Hoks.
    destruct Hoks as [Ho Hoks].
    destruct pre as [ | p pre ]; cbn [app] in Heq.
    + injection Heq as <- _. congruence.
    + injection Heq as <- Hr.
      destruct (IH pre ev post Hoks Hrest Hev Hr) as (-> & -> & ->).
      auto.
Qed.

Lemma never_fails_no_failure w :
  driver_never_fails w -> ~ some_call_fails w.
Proof.
  intros (_ & Hw & Hr) (sp & k & d & H).
  rewrite Hw, Hr in H. discriminate.
Qed.

(** Without a driver error the exit code is [EXIT_SUCCESS], mismatches
    or not: the [errors] tested at the end of [main] is never
    written. *)
Lemma exit_success_without_driver_error w :
  driver_never_fails w -> fst (main w) = EXIT_SUCCESS.
Proof.
  intros Hnf.
  destruct (main_run w) as [[Hi _] | [_ (evs & _ & [[Hm _] | [_ Hab]])]].
  - destruct Hnf as [Hinit _]. rewrite Hinit in Hi. discriminate.
  - now rewrite Hm.
  - destruct Hab as [Hsome _]. now apply never_fails_no_failure in Hsome.
Qed.

Lemma all_lengths_from i n k :
  In k (lengths_from i n) <-> i <= k < i + Z.of_nat n.
Proof.
  revert i. induction n as [ | n IH ]; intros i.
  - cbn. lia.
  - cbn [lengths_from In]. rewrite IH. lia.
Qed.

(** C1, on the code: with every driver call answering Ok and a
    read-back that differs from the reference (the mismatch of
    iteration 1 is reported), [main] still exits with [EXIT_SUCCESS].
    The claim wants a failure exit code there. *)
Theorem mismatch_exits_with_success :
  driver_never_fails corrupted_world /\
  In (EvMismatch 1 0 0 1) (snd (main corrupted_world)) /\
  fst (main corrupted_world) = EXIT_SUCCESS.
Proof.
  assert (Hnf : driver_never_fails corrupted_world)
    by (repeat split; intros; reflexivity).
  split; [ exact Hnf | ].
  split; [ | now apply exit_success_without_driver_error ].
  destruct (main_run corrupted_world)
    as [[Hi _] | [_ (evs & (rest & Hpre) & [[Hm _] | [_ [Hsome _]]])]].
  - discriminate Hi.
  - rewrite Hm, Hpre. cbn [snd].
    apply in_or_app; right. apply in_or_app; left. apply in_or_app; left.
    vm_compute. tauto.
  - destruct (never_fails_no_failure _ Hnf Hsome).
Qed.

(** The run on a healthy flash, evaluated: exit code, and transfers and
    mismatch lines of the two loops. *)
Lemma healthy_run_report :
  let r := main healthy_world in
  let std := firstn (Z.to_nat 15362) (snd r) in
  let quad := skipn (Z.to_nat 15362) (snd r) in
  (fst r, transfers std, filter is_mismatch std,
   transfers quad, filter is_mismatch quad) =
  (EXIT_SUCCESS, full_loop Standard, [],
   full_loop Quad, map partial_word_line partial_lengths).
Proof. vm_compute. reflexivity. Qed.

(** C2, on the code: on a healthy flash, whose reads deliver exactly
    the bytes asked for, the verification of the standard-speed loop
    finds nothing, and the verification of the quad-speed loop reports a
    mismatch for each of the 768 lengths that end in a partial word: the
    destination buffer still holds the 1024 bytes of the last
    standard-speed read, and the bytes of the last word beyond the
    length are compared with zeros instead of being ignored.  The claim
    wants them ignored. *)
Theorem healthy_flash_reports_mismatches :
  let r := main healthy_world in
  driver_never_fails healthy_world /\
  fst r = EXIT_SUCCESS /\
  (forall L, In L partial_lengths <->
             1 <= L <= MAX_TEST_BUF_LEN /\ L mod 4 <> 0) /\
  length partial_lengths = 768%nat /\
  exists std quad,
    snd r = std ++ quad /\
    transfers std = full_loop Standard /\
    filter is_mismatch std = [] /\
    transfers quad = full_loop Quad /\
    filter is_mismatch quad = map partial_word_line partial_lengths.
Proof.
  intros r.
  split; [ repeat split; intros; reflexivity | ].
  pose proof healthy_run_report as Hrun. cbv zeta in Hrun. fold r in Hrun.
  apply pair_equal_spec in Hrun; destruct Hrun as [Hrun Hmq].
  apply pair_equal_spec in Hrun; destruct Hrun as [Hrun Htq].
  apply pair_equal_spec in Hrun; destruct Hrun as [Hrun Hms].
  apply pair_equal_spec in Hrun; destruct Hrun as [Hcode Hts].
  split; [ exact Hcode | ].
  split.
  { intros L. unfold partial_lengths, all_lengths.
    rewrite filter_In, all_lengths_from, negb_true_iff, Z.eqb_neq.
    rewrite Z2Nat.id by discriminate. unfold MAX_TEST_BUF_LEN. lia. }
  split; [ vm_compute; reflexivity | ].
  exists (firstn (Z.to_nat 15362) (snd r)), (skipn (Z.to_nat 15362) (snd r)).
  split; [ symmetry; apply firstn_skipn | ].
  split; [ exact Hts | ]. split; [ exact Hms | ].
  split; [ exact Htq | exact Hmq ].
Qed.

(** C5. When a write or a read driver call returns a non-Ok status,
    [main] exits with [EXIT_FAILURE] and the failed call is followed by
    the stop of the tick counter and nothing else: no further
    iteration, no second attempt, no verification of the data of that
    iteration; it is the only failed call of the run. *)
Theorem driver_error_aborts_run w pre ev post :
  snd (main w) = pre ++ ev :: post ->
  failed_transfer ev = true ->
  fst (main w) = EXIT_FAILURE /\
  post = [timer_stop_event] /\
  transfers post = [] /\
  verified post = [] /\
  forallb ok_event pre = true.
Proof.
  intros Htr Hev. pose proof (failed_transfer_not_ok ev Hev) as Hnok.
  destruct (main_run w)
    as [[Hi Hm] | [Hi (evs & _ & [[Hm (Hok & _)] | [Hm Hab]])]];
    rewrite Hm in *; cbn [fst snd] in *.
  - destruct pre as [ | p [ | q pre ] ]; cbn [app] in Htr;
      try discriminate Htr.
    injection Htr as <- _. discriminate Hev.
  - exfalso.
    assert (Hall : forallb ok_event
              (([EvFlashInit (init_status w); EvTimerInit] ++ evs)
                 ++ [EvSuccess]) = true).
    { rewrite !forallb_app, Hok. cbn. unfold ok_event. cbn.
      now rewrite Hi. }
    rewrite <- app_assoc, Htr, forallb_app in Hall. cbn [forallb] in Hall.
    rewrite Hnok, andb_false_r in Hall. discriminate.
  - destruct Hab as (_ & oks & bad & Hevs & Hoks & Hbad).
    rewrite Hevs, app_assoc in Htr.
    assert (Hpre : forallb ok_event
              ([EvFlashInit (init_status w); EvTimerInit] ++ oks) = true).
    { rewrite forallb_app, Hoks. cbn. unfold ok_event. cbn.
      now rewrite Hi. }
    destruct (first_failure_unique _ bad [timer_stop_event] pre ev post
                Hpre eq_refl Hnok Htr) as (-> & -> & ->).
    repeat split; try reflexivity. exact Hpre.
Qed.

Lemma driver_error_aborts_run_witness :
  snd (main failing_world) =
    ([ EvFlashInit FLASH_OK; EvTimerInit ]
       ++ iteration_events failing_world Standard 1
            (flash_data_32 initial_state)
       ++ timer_start_events)
    ++ EvFlashWrite Standard DMA_MODE FLASH_ADDR 2 (FLASH_ERROR 1)
    :: [ timer_stop_event ] /\
  fst (main failing_world) = EXIT_FAILURE.
Proof.
  assert (Htr : snd (main failing_world) =
    ([ EvFlashInit FLASH_OK; EvTimerInit ]
       ++ iteration_events failing_world Standard 1
            (flash_data_32 initial_state)
       ++ timer_start_events)
    ++ EvFlashWrite Standard DMA_MODE FLASH_ADDR 2 (FLASH_ERROR 1)
    :: [ timer_stop_event ]) by (vm_compute; reflexivity).
  split; [ exact Htr | ].
  apply (driver_error_aborts_run failing_world _ _ _ Htr).
  reflexivity.
Defined.

(** C6. As long as the driver calls return Ok, nothing ends the run
    early, whatever data the reads deliver and however many mismatches
    are found: the run writes, reads and verifies every length
    1..1024 at standard speed and then every length 1..1024 at quad
    speed. *)
Theorem mismatch_never_aborts w :
  driver_never_fails w ->
  transfers (snd (main w)) = full_loop Standard ++ full_loop Quad /\
  verified (snd (main w)) = all_lengths ++ all_lengths /\
  (forall i, In i all_lengths <-> 1 <= i <= MAX_TEST_BUF_LEN).
Proof.
  intros Hnf.
  split; [ | split ].
  - destruct (main_run w)
      as [[Hi _] | [_ (evs & _ & [[Hm (_ & Hts & _)] | [_ Hab]])]].
    + destruct Hnf as [Hinit _]. rewrite Hinit in Hi. discriminate.
    + rewrite Hm. cbn [snd]. rewrite !transfers_app, Hts.
      cbn [transfers app]. now rewrite app_nil_r.
    + destruct Hab as [Hsome _].
      now apply never_fails_no_failure in Hsome.
  - destruct (main_run w)
      as [[Hi _] | [_ (evs & _ & [[Hm (_ & _ & Hvs)] | [_ Hab]])]].
    + destruct Hnf as [Hinit _]. rewrite Hinit in Hi. discriminate.
    + rewrite Hm. cbn [snd]. rewrite !verified_app, Hvs.
      cbn [verified app]. now rewrite app_nil_r.
    + destruct Hab as [Hsome _].
      now apply never_fails_no_failure in Hsome.
  - intros i. unfold all_lengths. rewrite all_lengths_from.
    rewrite Z2Nat.id by discriminate. lia.
Qed.

Lemma mismatch_never_aborts_witness :
  driver_never_fails corrupted_world /\
  transfers (snd (main corrupted_world))
    = full_loop Standard ++ full_loop Quad.
Proof.
  assert (Hnf : driver_never_fails corrupted_world)
    by (repeat split; intros; reflexivity).
  split; [ exact Hnf | ].
  apply (mismatch_never_aborts corrupted_world Hnf).
Defined.

(** C9, as amended. Every timed write and every timed read goes: zero
    written to the lower and to the upper raw counter register, counting
    enabled, the flash operation, counting disabled; when the status is
    Ok the run then goes on with the read of the elapsed ticks as a
    64-bit value, which is the number of ticks that passed during the
    operation, and when it is not, [main] returns without reading them.
    And a counter that is stopped and reset reads 0, however long one
    waits before reading it. *)
Theorem timed_operation_steps w sp i s n :
  (exists s',
     profile_iteration w sp i tt s =
       (if is_error (write_status w sp i)
           || is_error (fst (read_result w sp i (flash_data_32 s)))
        then Return EXIT_FAILURE s'
        else Next tt s') /\
     trace s' =
       trace s ++
       timed_write_events w sp i ++
       (if is_error (write_status w sp i) then []
        else
          report_write_events w sp i ++
          timed_read_events w sp i (flash_data_32 s) ++
          (if is_error (fst (read_result w sp i (flash_data_32 s))) then []
           else
             report_read_events w sp i ++
             verification_events
               i (snd (read_result w sp i (flash_data_32 s)))
               (flash_original_32 w)))) /\
  timed_write_events w sp i =
    [ EvWriteLower0 hart_id 0; EvWriteUpper0 hart_id 0;
      EvCounterEnabled hart_id true;
      EvFlashWrite sp DMA_MODE FLASH_ADDR i (write_status w sp i);
      EvCounterEnabled hart_id false ] /\
  timed_read_events w sp i (flash_data_32 s) =
    [ EvWriteLower0 hart_id 0; EvWriteUpper0 hart_id 0;
      EvCounterEnabled hart_id true;
      EvFlashRead sp DMA_MODE FLASH_ADDR i
                  (fst (read_result w sp i (flash_data_32 s)));
      EvCounterEnabled hart_id false ] /\
  report_write_events w sp i =
    [ EvCounterRead hart_id (write_ticks w sp i mod 2 ^ 64);
      EvPrintW (write_ticks w sp i mod 2 ^ 64) ] /\
  report_read_events w sp i =
    [ EvCounterRead hart_id (read_ticks w sp i mod 2 ^ 64);
      EvPrintR (read_ticks w sp i mod 2 ^ 64) ] /\
  (exists s', read_after_reset n s = Next 0 s').
Proof.
  split.
  - destruct (profile_iteration_run w sp i s) as (s' & Ho & Htr & _).
    exists s'. split; [ exact Ho | exact Htr ].
  - repeat split. eexists. reflexivity.
Qed.

(** C9, as stated, fails: a timed operation is not always followed by
    the read of the elapsed ticks.  When the standard-speed write of
    length 2 answers an error, the iteration is over with the stop of
    the counter, and the counter is not read. *)
Lemma failed_operation_ticks_not_read :
  ~ (forall w sp i s,
        exists ticks rest,
          trace (final_state (profile_iteration w sp i tt s)) =
            trace s ++ timed_write_events w sp i
                    ++ EvCounterRead hart_id ticks :: rest) /\
  trace (final_state
           (profile_iteration failing_world Standard 2 tt initial_state)) =
    [ EvWriteLower0 hart_id 0; EvWriteUpper0 hart_id 0;
      EvCounterEnabled hart_id true;
      EvFlashWrite Standard DMA_MODE FLASH_ADDR 2 (FLASH_ERROR 1);
      EvCounterEnabled hart_id false ].
Proof.
  split; [ | vm_compute; reflexivity ].
  intros H.
  destruct (H failing_world Standard 2 initial_state) as (ticks & rest & Htr).
  vm_compute in Htr. discriminate Htr.
Qed.

End RunFacts.

(** ** The completion signal *)

Module CompletionFacts.
Import Completion.

Lemma run_snoc sched k m : run (sched ++ [k]) m = step k (run sched m).
Proof. unfold run. now rewrite fold_left_app. Qed.

Lemma main_actions_app l1 l2 :
  main_actions (l1 ++ l2) = main_actions l1 ++ main_actions l2.
Proof. apply filter_app. Qed.

Lemma handler_actions_app l1 l2 :
  handler_actions (l1 ++ l2) = handler_actions l1 ++ handler_actions l2.
Proof. apply filter_app. Qed.

Lemma signaled_count_app l1 l2 :
  signaled_count (l1 ++ l2) = (signaled_count l1 + signaled_count l2)%nat.
Proof. unfold signaled_count. now rewrite filter_app, length_app. Qed.

Lemma flat_map_turn_snoc turns b :
  flat_map turn (turns ++ [b]) = flat_map turn turns ++ turn b.
Proof. rewrite flat_map_app. cbn [flat_map]. now rewrite app_nil_r. Qed.

Lemma armed_invariant : invariant armed.
Proof.
  unfold invariant. cbn. repeat split.
  - exists [], []. split; reflexivity.
  - left. repeat split.
Qed.

(** The handler: both sources disabled, then the flag set. *)
Lemma fic_irq_spi_effect m :
  let m' := fic_irq_spi m in
  log m' = log m ++ handler_run /\
  evt_intr m' = false /\ rxwm_intr m' = false /\ spi_intr_flag m' = 1 /\
  pc m' = pc m /\ mstatus_mie m' = mstatus_mie m.
Proof.
  cbn. rewrite <- !app_assoc. repeat split.
Qed.

Ltac log_of_main_action :=
  rewrite ?main_actions_app, ?handler_actions_app, ?signaled_count_app;
  cbn [main_actions handler_actions signaled_count filter
       is_handler_action negb length];
  rewrite ?app_nil_r, ?Nat.add_0_r.

Ltac run_statement :=
  cbv zeta;
  cbn [goto with_log set_mstatus_mie pc mstatus_mie spi_intr_flag log
       evt_intr rxwm_intr irq_raised].

(** The main program leaves the signal as it is. *)
Lemma main_step_signal m : signal_state m -> signal_state (main_step m).
Proof.
  unfold signal_state, main_step.
  intros Hs.
  destruct (pc m); run_statement;
    try destruct (spi_intr_flag m =? 0); run_statement;
    log_of_main_action; exact Hs.
Qed.

Lemma main_step_invariant m : invariant m -> invariant (main_step m).
Proof.
  intros (Hturns & Hmie & Hwfi & Hsig).
  pose proof (main_step_signal m Hsig) as Hsig'.
  split; [ | split; [ | split; [ | exact Hsig' ] ] ].
  - destruct Hturns as (turns & done & Hlog & Hdone).
    unfold turn_under_way in *. unfold main_step.
    destruct (pc m) eqn:Hpc; run_statement.
    + (* PcWhile *)
      subst done. rewrite app_nil_r in Hlog.
      destruct (Z.eqb_spec (spi_intr_flag m) 0) as [Hz | Hnz];
        run_statement; log_of_main_action;
        exists turns; eexists; (split; [ rewrite Hlog; reflexivity | ]).
      * now rewrite Hz.
      * destruct Hsig as [(Hf & _) | (Hf & _)]; [ contradiction | ].
        now rewrite Hf.
    + (* PcClear *)
      log_of_main_action.
      exists turns. eexists. split.
      * rewrite Hlog, <- app_assoc. reflexivity.
      * subst done. reflexivity.
    + (* PcIf *)
      destruct (Z.eqb_spec (spi_intr_flag m) 0) as [Hz | Hnz];
        run_statement; log_of_main_action;
        exists turns; eexists;
        (split; [ rewrite Hlog, <- !app_assoc; reflexivity | ]);
        subst done.
      * rewrite Hz. reflexivity.
      * destruct Hsig as [(Hf & _) | (Hf & _)]; [ contradiction | ].
        rewrite Hf. right. reflexivity.
    + (* PcWfi *)
      log_of_main_action.
      exists turns. eexists. split.
      * rewrite Hlog, <- app_assoc. reflexivity.
      * subst done. left. reflexivity.
    + (* PcSet *)
      log_of_main_action.
      destruct Hdone as [-> | ->].
      * exists (turns ++ [true]), []. split; [ | reflexivity ].
        rewrite Hlog, flat_map_turn_snoc, <- !app_assoc. reflexivity.
      * exists (turns ++ [false]), []. split; [ | reflexivity ].
        rewrite Hlog, flat_map_turn_snoc, <- !app_assoc. reflexivity.
    + (* PcExit *)
      exists turns, done. rewrite Hpc. auto.
  - unfold main_step.
    destruct (pc m) eqn:Hpc; run_statement;
      try destruct (spi_intr_flag m =? 0); run_statement;
      rewrite ?Hmie, ?Hpc; reflexivity.
  - unfold main_step.
    destruct (pc m) eqn:Hpc; run_statement;
      try destruct (Z.eqb_spec (spi_intr_flag m) 0) as [Hz | Hnz];
      run_statement;
      rewrite ?Hpc; try discriminate; intros _; assumption.
Qed.

Lemma raise_irq_invariant m : invariant m -> invariant (raise_irq m).
Proof. intros H. exact H. Qed.

Lemma interrupt_invariant m :
  invariant m -> irq_taken m = true -> invariant (fic_irq_spi m).
Proof.
  intros (Hturns & Hmie & Hwfi & Hsig) Htaken.
  unfold irq_taken in Htaken.
  apply andb_true_iff in Htaken. destruct Htaken as [Htaken Hon].
  apply andb_true_iff in Htaken. destruct Htaken as [_ Hsrc].
  destruct (fic_irq_spi_effect m) as (Hlog & He & Hr & Hf & Hpc & Hm).
  destruct Hsig as [(Hf0 & Hh0 & Hc0 & He0 & Hr0) | (_ & _ & _ & He1 & Hr1)];
    [ | rewrite He1, Hr1 in Hsrc; discriminate ].
  unfold invariant, turn_under_way, signal_state.
  rewrite Hlog, Hpc, Hm, Hf, He, Hr.
  rewrite main_actions_app, handler_actions_app, signaled_count_app.
  rewrite Hh0, Hc0.
  change (main_actions handler_run) with (@nil action).
  rewrite app_nil_r.
  split; [ exact Hturns | ].
  split; [ exact Hmie | ].
  split.
  - intros Hp. rewrite Hmie, Hp in Hon. discriminate.
  - right. repeat split.
Qed.

Lemma step_invariant k m : invariant m -> invariant (step k m).
Proof.
  intros H. destruct k; cbn [step].
  - now apply main_step_invariant.
  - now apply raise_irq_invariant.
  - destruct (irq_taken m) eqn:Ht; [ now apply interrupt_invariant | exact H ].
Qed.

Lemma run_invariant sched : invariant (run sched armed).
Proof.
  induction sched as [ | k sched IH ] using rev_ind.
  - exact armed_invariant.
  - rewrite run_snoc. now apply step_invariant.
Qed.



End CompletionFacts.

(** ** More on the Fast Read Quad I/O example *)

Module QuadIOMore.
Import CInt CIntFacts QuadIO QuadIOFacts.

Lemma byte_lane_testbit a k n :
  0 <= k -> 0 <= n ->
  Z.testbit ((a / 2 ^ k) mod 2 ^ 8) n = (n <? 8) && Z.testbit a (n + k).
Proof.
  intros Hk Hn.
  rewrite Z.testbit_mod_pow2 by lia.
  now rewrite Z.div_pow2_bits by lia.
Qed.

(** The reversed address has nothing above bit 23. *)
Lemma REVERT_24b_ADDR_range a : 0 <= REVERT_24b_ADDR a < 2 ^ 24.
Proof.
  assert (H : REVERT_24b_ADDR a = REVERT_24b_ADDR a mod 2 ^ 24).
  { apply Z.bits_inj'. intros n Hn.
    rewrite Z.testbit_mod_pow2 by lia.
    rewrite REVERT_24b_ADDR_testbit by assumption.
    split_byte_lane n; decide_ltb; rewrite ?andb_true_l; reflexivity. }
  rewrite H. apply Z.mod_pos_bound. reflexivity.
Qed.

(** The macro exchanges the byte lanes 0 and 2 of the address, keeps lane
    1 and drops everything above bit 23, whatever the value it is applied
    to. *)
Theorem REVERT_24b_ADDR_lanes a :
  0 <= REVERT_24b_ADDR a < 2 ^ 24 /\
  (REVERT_24b_ADDR a / 2 ^ 0) mod 2 ^ 8 = (a / 2 ^ 16) mod 2 ^ 8 /\
  (REVERT_24b_ADDR a / 2 ^ 8) mod 2 ^ 8 = (a / 2 ^ 8) mod 2 ^ 8 /\
  (REVERT_24b_ADDR a / 2 ^ 16) mod 2 ^ 8 = (a / 2 ^ 0) mod 2 ^ 8.
Proof.
  split; [ apply REVERT_24b_ADDR_range | split; [ | split ] ].
  - apply Z.bits_inj'. intros n Hn. rewrite !byte_lane_testbit by lia.
    rewrite REVERT_24b_ADDR_testbit by lia.
    destruct (Z.ltb_spec n 8); [ | reflexivity ].
    decide_ltb. rewrite Z.add_0_r. reflexivity.
  - apply Z.bits_inj'. intros n Hn. rewrite !byte_lane_testbit by lia.
    rewrite REVERT_24b_ADDR_testbit by lia.
    destruct (Z.ltb_spec n 8); [ | reflexivity ].
    decide_ltb. reflexivity.
  - apply Z.bits_inj'. intros n Hn. rewrite !byte_lane_testbit by lia.
    rewrite REVERT_24b_ADDR_testbit by lia.
    destruct (Z.ltb_spec n 8); [ | reflexivity ].
    decide_ltb. rewrite Z.add_0_r. cbn [andb]. f_equal. lia.
Qed.

Lemma REVERT_24b_ADDR_no_top_byte a :
  Z.land (REVERT_24b_ADDR a) (Z.shiftl 0xFF 24) = 0.
Proof.
  apply Z.bits_inj'. intros n Hn.
  rewrite Z.land_spec, Z.bits_0, REVERT_24b_ADDR_testbit by assumption.
  split_byte_lane n; decide_ltb; rewrite ?andb_false_l; try reflexivity.
  all: rewrite Z.shiftl_spec_low by lia; apply andb_false_r.
Qed.

(** The word sent in the address segment: outside the memory-mapped
    case, the reversed address in its three low bytes and FFh in the top
    byte; in the memory-mapped simulation case, the constant 03h. *)
Theorem read_byte_cmd_layout e :
  read_byte_cmd e =
    (if spimemio e then 0x03
     else 0xFF * 2 ^ 24 + REVERT_24b_ADDR (flash_original_addr e)) /\
  0 <= read_byte_cmd e < 2 ^ 32.
Proof.
  assert (Hcmd : read_byte_cmd e =
            if spimemio e then 0x03
            else 0xFF * 2 ^ 24 + REVERT_24b_ADDR (flash_original_addr e)).
  { unfold read_byte_cmd. destruct (spimemio e); [ reflexivity | ].
    change (u32 (Z.shiftl 0xFF 24)) with (Z.shiftl 0xFF 24).
    rewrite <- Z.lxor_lor by apply REVERT_24b_ADDR_no_top_byte.
    rewrite <- Z.add_nocarry_lxor by apply REVERT_24b_ADDR_no_top_byte.
    rewrite Z.add_comm. reflexivity. }
  split; [ exact Hcmd | ].
  rewrite Hcmd. destruct (spimemio e); [ split; [ lia | reflexivity ] | ].
  pose proof (REVERT_24b_ADDR_range (flash_original_addr e)) as Hr.
  change (2 ^ 24) with 16777216 in *. change (2 ^ 32) with 4294967296.
  lia.
Qed.

(** *** The clock divider, for every core clock *)

Lemma spi_clk_small_divider core_clk d :
  0 <= d <= 16 -> spi_clk core_clk d = core_clk / (2 + 2 * d).
Proof.
  intros Hd. unfold spi_clk.
  now rewrite u32_small by (change (2 ^ 32) with 4294967296; lia).
Qed.

Lemma spi_clk_above core_clk d :
  0 <= d <= 16 ->
  (FLASH_CLK_MAX_HZ + 1) * (2 + 2 * d) <= core_clk ->
  FLASH_CLK_MAX_HZ < spi_clk core_clk d.
Proof.
  intros Hd Hle. rewrite spi_clk_small_divider by assumption.
  apply Z.lt_le_trans with (FLASH_CLK_MAX_HZ + 1); [ lia | ].
  apply Z.div_le_lower_bound; lia.
Qed.

Lemma spi_clk_above_inv core_clk d :
  0 <= d <= 16 ->
  FLASH_CLK_MAX_HZ < spi_clk core_clk d ->
  (FLASH_CLK_MAX_HZ + 1) * (2 + 2 * d) <= core_clk.
Proof.
  intros Hd Hlt. rewrite spi_clk_small_divider in Hlt by assumption.
  destruct (Z_le_gt_dec ((FLASH_CLK_MAX_HZ + 1) * (2 + 2 * d)) core_clk)
    as [Hle | Hgt]; [ exact Hle | exfalso ].
  assert (core_clk / (2 + 2 * d) < FLASH_CLK_MAX_HZ + 1)
    by (apply Z.div_lt_upper_bound; lia).
  lia.
Qed.

Lemma compute_clk_div_props core_clk :
  0 <= core_clk < 2 ^ 32 ->
  0 <= compute_clk_div core_clk <= 16 /\
  spi_clk core_clk (compute_clk_div core_clk) <= FLASH_CLK_MAX_HZ /\
  (forall d, 0 <= d < compute_clk_div core_clk ->
             FLASH_CLK_MAX_HZ < spi_clk core_clk d).
Proof.
  intros Hc. unfold compute_clk_div.
  destruct (Z.ltb_spec FLASH_CLK_MAX_HZ (core_clk / 2)) as [Hlt | Hge].
  - destruct (clk_div_trunc_shape core_clk Hc Hlt)
      as (q & r & k & Hcc & Hr & Hq & Hk & Htr).
    rewrite Htr. rewrite FLASH_CLK_MAX_HZ_value in Hcc, Hr.
    destruct (Z.ltb_spec FLASH_CLK_MAX_HZ (spi_clk core_clk k)) as [Hgt | Hle].
    + rewrite (u16_small (k + 1)) by (change (2 ^ 16) with 65536; lia).
      split; [ lia | ]. split.
      * rewrite spi_clk_small_divider by lia.
        apply Z.lt_succ_r. apply Z.div_lt_upper_bound; [ lia | ].
        rewrite FLASH_CLK_MAX_HZ_value. lia.
      * intros d Hd. apply spi_clk_above; [ lia | ].
        apply spi_clk_above_inv in Hgt; [ | lia ].
        rewrite FLASH_CLK_MAX_HZ_value in *. lia.
    + split; [ lia | ]. split; [ exact Hle | ].
      intros d Hd. apply spi_clk_above; [ lia | ].
      rewrite FLASH_CLK_MAX_HZ_value. lia.
  - split; [ lia | ]. split; [ | intros d Hd; lia ].
    rewrite spi_clk_small_divider by lia. exact Hge.
Qed.

(** For every core clock the divider programmed into the host is at most
    16, keeps the SPI clock at or below the maximal flash clock, and is
    the smallest divider that does. *)
Theorem compute_clk_div_least core_clk :
  0 <= core_clk < 2 ^ 32 ->
  0 <= compute_clk_div core_clk <= 16 /\
  spi_clk core_clk (compute_clk_div core_clk) <= FLASH_CLK_MAX_HZ /\
  (forall d, 0 <= d < compute_clk_div core_clk ->
             FLASH_CLK_MAX_HZ < spi_clk core_clk d).
Proof. exact (compute_clk_div_props core_clk). Qed.

Lemma compute_clk_div_least_witness :
  compute_clk_div 800000000 = 3 /\
  spi_clk 800000000 3 <= FLASH_CLK_MAX_HZ /\
  FLASH_CLK_MAX_HZ < spi_clk 800000000 2.
Proof.
  destruct (compute_clk_div_least 800000000) as (_ & Hle & Hmin).
  - split; [ lia | reflexivity ].
  - split; [ reflexivity | ]. split; [ exact Hle | ].
    apply Hmin. split; [ lia | reflexivity ].
Defined.

(** *** The comparison with the reference and the exit code *)

Lemma compare_loop_count fd ram n : forall k errs,
  0 <= errs -> errs + Z.of_nat n < 2 ^ 32 ->
  compare_loop n (Z.of_nat k) fd ram errs =
    errs + Z.of_nat (length (filter (fun j => negb (word_at fd j =? word_at ram j))
                                    (map Z.of_nat (seq k n)))).
Proof.
  induction n as [ | n IH ]; intros k errs He Hb.
  - cbn. lia.
  - cbn [compare_loop seq map filter].
    replace (Z.of_nat k + 1) with (Z.of_nat (S k)) by lia.
    pose proof (filter_length_le
                  (fun j => negb (word_at fd j =? word_at ram j))
                  (map Z.of_nat (seq (S k) n))) as Hle.
    rewrite length_map, length_seq in Hle.
    destruct (negb (word_at fd (Z.of_nat k) =? word_at ram (Z.of_nat k))).
    + rewrite IH.
      * rewrite u32_small by lia. cbn [length]. lia.
      * apply u32_range.
      * rewrite u32_small by lia. lia.
    + rewrite IH by lia. reflexivity.
Qed.

Lemma count_errors_filter fd ram :
  count_errors fd ram =
    Z.of_nat (length (filter (fun j => negb (word_at fd j =? word_at ram j))
                             [0; 1; 2; 3; 4; 5; 6; 7])).
Proof.
  unfold count_errors. change 0 with (Z.of_nat 0) at 1.
  rewrite compare_loop_count by (try reflexivity; lia).
  reflexivity.
Qed.

(** The error count of the example is the number of the eight words that
    differ from the reference, hence at most 8; words beyond the eighth
    play no part. *)
Theorem count_errors_counts fd ram :
  count_errors fd ram =
    Z.of_nat (length (filter (fun j => negb (word_at fd j =? word_at ram j))
                             [0; 1; 2; 3; 4; 5; 6; 7])) /\
  0 <= count_errors fd ram <= 8.
Proof.
  split; [ apply count_errors_filter | ]. rewrite count_errors_filter.
  pose proof (filter_length_le
                (fun j => negb (word_at fd j =? word_at ram j))
                [0; 1; 2; 3; 4; 5; 6; 7]) as Hle.
  cbn [length] in Hle. lia.
Qed.

Lemma filter_all_false {A} (f : A -> bool) l :
  (forall x, In x l -> f x = false) -> filter f l = [].
Proof.
  induction l as [ | x l IH ]; intros H; [ reflexivity | ].
  cbn [filter]. rewrite (H x (or_introl eq_refl)).
  apply IH. intros y Hy. apply H. now right.
Qed.

Lemma flash_data_word e j :
  0 <= j < 8 -> word_at (flash_data e) j = word_at (rx_fifo e) j.
Proof.
  intros Hj. unfold flash_data.
  assert (Hc : j = 0 \/ j = 1 \/ j = 2 \/ j = 3 \/ j = 4 \/ j = 5 \/ j = 6
               \/ j = 7) by lia.
  destruct Hc as [-> | [-> | [-> | [-> | [-> | [-> | [-> | ->]]]]]]];
    reflexivity.
Qed.

(** The comparison finds no error exactly when each of the eight words
    taken from the RX FIFO equals the reference word. *)
Lemma count_errors_zero e :
  count_errors (flash_data e) (flash_original e) = 0 <->
  forall j, 0 <= j < 8 ->
            word_at (rx_fifo e) j = word_at (flash_original e) j.
Proof.
  pose proof (count_errors_filter (flash_data e) (flash_original e))
    as Hcount.
  set (differ := fun j => negb (word_at (flash_data e) j
                                =? word_at (flash_original e) j)) in *.
  split.
  - intros Hz j Hj. rewrite <- flash_data_word by assumption.
    rewrite Hz in Hcount.
    assert (Hnil : filter differ [0; 1; 2; 3; 4; 5; 6; 7] = [])
      by (apply length_zero_iff_nil; lia).
    assert (Hin : In j [0; 1; 2; 3; 4; 5; 6; 7]) by (cbn; lia).
    destruct (differ j) eqn:Hd.
    + assert (Hf : In j (filter differ [0; 1; 2; 3; 4; 5; 6; 7]))
        by (apply filter_In; auto).
      rewrite Hnil in Hf. destruct Hf.
    + unfold differ in Hd. apply negb_false_iff in Hd.
      now apply Z.eqb_eq.
  - intros Hall. rewrite Hcount.
    assert (Hnil : filter differ [0; 1; 2; 3; 4; 5; 6; 7] = []).
    { apply filter_all_false. intros j Hin.
      assert (Hj : 0 <= j < 8) by (cbn in Hin; lia).
      unfold differ. rewrite flash_data_word, (Hall j Hj) by assumption.
      now rewrite Z.eqb_refl. }
    now rewrite Hnil.
Qed.

(** *** The calls of [main] *)

(** The calls made are calls of the program. *)
Lemma issue_made ready es : forall k c,
  In c (fst (issue ready k es)) -> In c es.
Proof.
  induction es as [ | c0 es IH ]; intros k c Hin; [ destruct Hin | ].
  assert (Hstep : forall k',
            In c (c0 :: fst (issue ready k' es)) -> In c (c0 :: es)).
  { intros k' [<- | H]; [ now left | right; now apply (IH k') ]. }
  destruct c0; cbn [issue] in Hin;
    try (destruct (issue ready k es) as [made through] eqn:Hi;
         apply (Hstep k); now rewrite Hi).
  destruct (ready k).
  - destruct (issue ready (S k) es) as [made through] eqn:Hi.
    apply (Hstep (S k)). now rewrite Hi.
  - destruct Hin as [<- | []]. now left.
Qed.

(** The only clock configuration [main] ever writes to the host is for
    chip 0, with a divider that keeps the SPI clock at or below the
    maximal flash clock. *)
Theorem main_programs_safe_clock e csid d :
  0 <= core_clk e < 2 ^ 32 ->
  In (SpiSetConfigopts csid d) (snd (main e)) ->
  csid = 0 /\ spi_clk (core_clk e) d <= FLASH_CLK_MAX_HZ.
Proof.
  intros Hc Hin.
  assert (Hcalls : In (SpiSetConfigopts csid d)
            (setup e ++ power_up ++ fast_read_quadio (read_byte_cmd e) ++
             [WaitForSpiInterrupt; SpiEnableEvtIntr true;
              SpiEnableRxwmIntr true] ++ map SpiReadWord (flash_data e))).
  { unfold main in Hin.
    destruct (spimemio e && USE_SPI_FLASH e); [ destruct Hin | ].
    pose proof (issue_made (host_ready e)
                  (setup e ++ power_up ++ fast_read_quadio (read_byte_cmd e))
                  0 (SpiSetConfigopts csid d)) as Hmade.
    destruct (issue _ _ _) as [calls through]. cbn [fst] in Hmade.
    assert (Hsplit :
              setup e ++ power_up ++ fast_read_quadio (read_byte_cmd e) ++
              [WaitForSpiInterrupt; SpiEnableEvtIntr true;
               SpiEnableRxwmIntr true] ++ map SpiReadWord (flash_data e) =
              (setup e ++ power_up ++ fast_read_quadio (read_byte_cmd e)) ++
              [WaitForSpiInterrupt; SpiEnableEvtIntr true;
               SpiEnableRxwmIntr true] ++ map SpiReadWord (flash_data e))
      by (now rewrite <- !app_assoc).
    rewrite Hsplit. apply in_or_app.
    destruct through; cbn [negb] in Hin; [ | left; now apply Hmade ].
    destruct (past_loop _); cbn [negb] in Hin.
    - assert (Hin' : In (SpiSetConfigopts csid d)
                (calls ++ [WaitForSpiInterrupt; SpiEnableEvtIntr true;
                           SpiEnableRxwmIntr true]
                       ++ map SpiReadWord (flash_data e)))
        by (destruct (count_errors (flash_data e) (flash_original e) =? 0);
            exact Hin).
      apply in_app_or in Hin'. destruct Hin' as [Hin' | Hin'];
        [ left; now apply Hmade | right; exact Hin' ].
    - cbn [snd] in Hin. apply in_app_or in Hin.
      destruct Hin as [Hin | [Hin | []]];
        [ left; now apply Hmade | discriminate Hin ]. }
  clear Hin.
  unfold setup, power_up, fast_read_quadio, flash_data in Hcalls.
  destruct (USE_SPI_FLASH e);
    cbn [app map seq In] in Hcalls;
    repeat (destruct Hcalls as [Heq | Hcalls]; try discriminate Heq);
    try contradiction;
    injection Heq as <- <-;
    (split; [ reflexivity | apply (compute_clk_div_props (core_clk e) Hc) ]).
Qed.

(** The core clock and flash mode of a 20 MHz simulation run. *)
Lemma main_programs_safe_clock_witness :
  let e := {| USE_SPI_FLASH := false; spimemio := false;
              core_clk := 20000000; flash_original_addr := 0x00012340;
              ptr_flash := []; rx_fifo := [1; 0; 0; 0; 0; 0; 0; 0];
              host_ready := fun _ => true;
              schedule := [Completion.HostRaises; Completion.Interrupt;
                           Completion.MainStep] |} in
  spi_clk (core_clk e) 0 <= FLASH_CLK_MAX_HZ.
Proof.
  intros e.
  apply (main_programs_safe_clock e 0 0).
  - cbn. split; [ lia | reflexivity ].
  - vm_compute. tauto.
Defined.

End QuadIOMore.

(** ** More on the verification of the data read back *)

Module VerificationMore.
Import CInt CIntFacts Profiling ProfilingSpec VerificationFacts.

Lemma filter_nil_iff {A} (f : A -> bool) l :
  filter f l = [] <-> forall x, In x l -> f x = false.
Proof.
  induction l as [ | x l IH ]; cbn [filter].
  - split; [ intros _ y [] | reflexivity ].
  - destruct (f x) eqn:Hx; split.
    + discriminate.
    + intros H. specialize (H x (or_introl eq_refl)). congruence.
    + intros Hnil y [<- | Hy]; [ exact Hx | now apply IH ].
    + intros H. apply IH. intros y Hy. apply H. now right.
Qed.

Lemma in_word_indices L j :
  0 <= L -> (In j (word_indices L) <-> 0 <= j < ceil_div4 L).
Proof.
  intros HL. split; [ now apply word_indices_range | ].
  intros Hj. unfold word_indices. apply in_map_iff.
  exists (Z.to_nat j). split; [ lia | ]. apply in_seq. lia.
Qed.

(** No mismatch is counted exactly when no compared word differs from
    its reference. *)
Lemma no_mismatch_iff L actual expected :
  1 <= L <= 1024 ->
  (mismatch_count L actual expected = 0 <->
   forall j, 0 <= j < ceil_div4 L ->
             word_at actual j = spec_reference L expected j).
Proof.
  intros HL. unfold mismatch_count.
  rewrite (proj1 (check_read_refines L actual expected HL)). cbn [fst snd].
  rewrite <- Nat2Z.inj_0, Nat2Z.inj_iff, length_zero_iff_nil.
  unfold spec_mismatches. rewrite filter_nil_iff.
  split; intros H j Hj.
  - apply (in_word_indices L j ltac:(lia)) in Hj. specialize (H j Hj).
    unfold differs in H. apply negb_false_iff in H. now apply Z.eqb_eq.
  - apply (in_word_indices L j ltac:(lia)) in Hj. specialize (H j Hj).
    unfold differs. apply negb_false_iff. now apply Z.eqb_eq.
Qed.

Lemma ceil_div4_cases L :
  0 <= L ->
  (L mod 4 = 0 /\ ceil_div4 L = L / 4) \/
  (L mod 4 <> 0 /\ ceil_div4 L = L / 4 + 1).
Proof.
  intros HL. unfold ceil_div4. Z.to_euclidean_division_equations. lia.
Qed.

(** The verification of a read of [L] bytes finds nothing to report
    exactly when every full word read back equals the reference word
    and, for a length that is not a multiple of 4, the last word read
    back has the [L mod 4] reference bytes in its low bytes and zeros
    above them. *)
Theorem verification_passes_iff L actual expected :
  1 <= L <= 1024 ->
  (mismatch_count L actual expected = 0 /\
   snd (check_read L actual expected) = [] <->
   (forall j, 0 <= j < L / 4 -> word_at actual j = word_at expected j) /\
   (L mod 4 <> 0 ->
    word_at actual (L / 4) =
    word_at expected (L / 4) mod 2 ^ (8 * (L mod 4)))).
Proof.
  intros HL.
  assert (Hlines : mismatch_count L actual expected = 0 ->
                   snd (check_read L actual expected) = []).
  { unfold mismatch_count.
    rewrite (proj1 (check_read_refines L actual expected HL)). cbn [fst snd].
    intros H.
    assert (Hn : spec_mismatches L actual expected = [])
      by (apply length_zero_iff_nil; lia).
    now rewrite Hn. }
  rewrite (no_mismatch_iff L actual expected HL).
  split.
  - intros [H _]. split.
    + intros j Hj. rewrite (H j).
      * unfold spec_reference.
        now rewrite (proj2 (Z.ltb_lt j (L / 4))) by lia.
      * destruct (ceil_div4_cases L ltac:(lia)) as [[_ ->] | [_ ->]]; lia.
    + intros Hpart. rewrite (H (L / 4)).
      * unfold spec_reference. now rewrite Z.ltb_irrefl.
      * destruct (ceil_div4_cases L ltac:(lia)) as [[Hm _] | [_ ->]];
          [ contradiction | ].
        split; [ apply Z.div_pos; lia | lia ].
  - intros [Hfull Hlast].
    assert (Hall : forall j, 0 <= j < ceil_div4 L ->
                     word_at actual j = spec_reference L expected j).
    { intros j Hj. unfold spec_reference.
      destruct (Z.ltb_spec j (L / 4)) as [Hlt | Hge].
      - apply Hfull. lia.
      - destruct (ceil_div4_cases L ltac:(lia)) as [[_ Hc] | [Hm Hc]];
          rewrite Hc in Hj; [ lia | ].
        assert (j = L / 4) as -> by lia. now apply Hlast. }
    split; [ exact Hall | ].
    apply Hlines. now apply no_mismatch_iff.
Qed.

Lemma verification_passes_iff_witness :
  mismatch_count 6 [0x11223344; 0x00006655] [0x11223344; 0x88776655] = 0.
Proof.
  apply (verification_passes_iff 6 [0x11223344; 0x00006655]
                                 [0x11223344; 0x88776655]).
  - lia.
  - split; [ | reflexivity ].
    intros j Hj. change (6 / 4) with 1 in Hj.
    assert (j = 0) as -> by lia. reflexivity.
Defined.

(** A buffer that holds the reference data itself, as a longer read
    leaves it, passes the verification of a shorter, partial length only
    if the reference bytes that follow the length in its last word are
    zero; for a multiple of 4 it always passes. *)
Theorem reference_against_itself L expected :
  1 <= L <= 1024 ->
  (mismatch_count L expected expected = 0 <->
   L mod 4 = 0 \/
   word_at expected (L / 4) mod 2 ^ (8 * (L mod 4)) =
   word_at expected (L / 4)) /\
  (mismatch_count L expected expected = 0 \/
   mismatch_count L expected expected = 1).
Proof.
  intros HL.
  assert (Hiff : mismatch_count L expected expected = 0 <->
                 L mod 4 = 0 \/
                 word_at expected (L / 4) mod 2 ^ (8 * (L mod 4)) =
                 word_at expected (L / 4)).
  { rewrite (no_mismatch_iff L expected expected HL). split.
    - intros H. destruct (Z.eq_dec (L mod 4) 0) as [Hz | Hnz]; [ now left | ].
      right. specialize (H (L / 4)). unfold spec_reference in H.
      rewrite Z.ltb_irrefl in H. symmetry. apply H.
      destruct (ceil_div4_cases L ltac:(lia)) as [[Hm _] | [_ ->]];
        [ contradiction | ].
      split; [ apply Z.div_pos; lia | lia ].
    - intros Hcases j Hj. unfold spec_reference.
      destruct (Z.ltb_spec j (L / 4)) as [Hlt | Hge]; [ reflexivity | ].
      destruct (ceil_div4_cases L ltac:(lia)) as [[_ Hc] | [Hm Hc]];
        rewrite Hc in Hj; [ lia | ].
      assert (j = L / 4) as -> by lia.
      destruct Hcases as [Hz | Heq]; [ contradiction | now symmetry ]. }
  split; [ exact Hiff | ].
  unfold mismatch_count.
  rewrite (proj1 (check_read_refines L expected expected HL)). cbn [fst snd].
  assert (Hfull : filter (differs L expected expected)
                         (map Z.of_nat (seq 0 (Z.to_nat (L / 4)))) = []).
  { apply filter_nil_iff. intros j Hin.
    apply in_map_iff in Hin. destruct Hin as (k & <- & Hk).
    apply in_seq in Hk.
    assert (0 <= L / 4) by (apply Z.div_pos; lia).
    unfold differs, spec_reference.
    rewrite (proj2 (Z.ltb_lt (Z.of_nat k) (L / 4))) by lia.
    now rewrite Z.eqb_refl. }
  unfold spec_mismatches, word_indices.
  assert (0 <= L / 4) by (apply Z.div_pos; lia).
  destruct (ceil_div4_cases L ltac:(lia)) as [[_ ->] | [_ ->]].
  - rewrite Hfull. left. reflexivity.
  - rewrite Z2Nat.inj_add, Nat.add_1_r, seq_S, map_app, filter_app, Hfull
      by lia.
    cbn [seq map filter app Nat.add].
    destruct (differs L expected expected _); [ right | left ]; reflexivity.
Qed.

Lemma reference_against_itself_witness :
  mismatch_count 5 [0x11223344; 0xAABBCC55] [0x11223344; 0xAABBCC55] = 1 /\
  mismatch_count 8 [0x11223344; 0xAABBCC55] [0x11223344; 0xAABBCC55] = 0.
Proof.
  split; [ reflexivity | ].
  apply (reference_against_itself 8 [0x11223344; 0xAABBCC55]).
  - lia.
  - left. reflexivity.
Defined.

(** The verification of a read of [L] bytes looks at the first
    [ceil(L/4)] words of the two buffers, at most 256 (1 kB), and at
    nothing beyond them. *)
Theorem verification_reads_prefix L actual actual' expected expected' :
  1 <= L <= 1024 ->
  (forall j, 0 <= j < ceil_div4 L ->
             word_at actual j = word_at actual' j /\
             word_at expected j = word_at expected' j) ->
  check_read L actual expected = check_read L actual' expected' /\
  ceil_div4 L <= 256.
Proof.
  intros HL Hsame.
  split; [ | unfold ceil_div4; Z.to_euclidean_division_equations; lia ].
  rewrite (proj1 (check_read_refines L actual expected HL)).
  rewrite (proj1 (check_read_refines L actual' expected' HL)).
  assert (Href : forall j, In j (word_indices L) ->
            spec_reference L expected j = spec_reference L expected' j).
  { intros j Hj. apply (in_word_indices L j ltac:(lia)) in Hj.
    unfold spec_reference. now rewrite (proj2 (Hsame j Hj)). }
  assert (Hd : forall j, In j (word_indices L) ->
            differs L actual expected j = differs L actual' expected' j).
  { intros j Hj. unfold differs. rewrite (Href j Hj).
    apply (in_word_indices L j ltac:(lia)) in Hj.
    now rewrite (proj1 (Hsame j Hj)). }
  unfold spec_mismatches. rewrite (filter_ext_in _ _ _ Hd).
  f_equal. apply map_ext_in. intros j Hj. apply filter_In in Hj.
  destruct Hj as [Hj _]. unfold mismatch_line. rewrite (Href j Hj).
  apply (in_word_indices L j ltac:(lia)) in Hj.
  now rewrite (proj1 (Hsame j Hj)).
Qed.

Lemma verification_reads_prefix_witness :
  check_read 6 [0x11223344; 0xFFFF6655; 7; 7] [0x11223344; 0x88776655; 9] =
  check_read 6 [0x11223344; 0xFFFF6655] [0x11223344; 0x88776655].
Proof.
  apply (verification_reads_prefix 6).
  - lia.
  - intros j Hj. change (ceil_div4 6) with 2 in Hj.
    assert (Hc : j = 0 \/ j = 1) by lia.
    destruct Hc as [-> | ->]; split; reflexivity.
Defined.

End VerificationMore.

(** ** More on the profiling run *)

Module RunMore.
Import CInt CIntFacts Profiling ProfilingSpec VerificationFacts RunFacts RunSpec.

(** One iteration, with the state it leaves. *)
Lemma profile_iteration_state w sp i s :
  let d := flash_data_32 s in
  exists s',
    profile_iteration w sp i tt s =
      (if iteration_fails w sp i d then Return EXIT_FAILURE s'
       else Next tt s') /\
    trace s' = trace s ++ iteration_events w sp i d /\
    errors s' = errors s /\
    flash_data_32 s' = iteration_data w sp i d /\
    flag s' = (if found_mismatch (iteration_events w sp i d) then 1
               else flag s) /\
    counting (timer_0_1 s') = false.
Proof.
  unfold profile_iteration, iteration_events, iteration_fails, iteration_data,
    verification_events, mismatch_count, trace, kRvTimerEnabled,
    kRvTimerDisabled, timed_write_events, timed_read_events,
    report_write_events, report_read_events, timer_start_events.
  cbv zeta.
  run_timed write_run.
  destruct (is_error (write_status w sp i)) eqn:Ew.
  - eexists. split; [ reflexivity | ].
    cbn [log errors flash_data_32 flag timer_0_1 counting orb].
    rewrite !trace_cons, <- !app_assoc, app_nil_r. cbn [app found_mismatch existsb orb].
    repeat split.
  - run_with counter_read_run. run_with emit_run.
    run_timed read_run.
    destruct (is_error (fst (read_result w sp i (flash_data_32 s)))) eqn:Er.
    + eexists. split; [ reflexivity | ].
      cbn [log errors flash_data_32 flag timer_0_1 counting orb].
      rewrite !counter_after_stop, !trace_cons, <- !app_assoc, app_nil_r.
      cbn [app found_mismatch existsb orb].
      repeat split.
    + run_with counter_read_run. run_with emit_run.
      run_with get_flash_data_run.
      pose proof (check_read_printed i
                    (snd (read_result w sp i (flash_data_32 s)))
                    (flash_original_32 w)) as Hp.
      destruct (check_read i (snd (read_result w sp i (flash_data_32 s)))
                           (flash_original_32 w))
        as [[j errs] printed] eqn:Ec.
      run_with emit_all_run. run_with emit_run.
      rewrite !counter_after_stop.
      cbn [fst snd] in *.
      assert (Hfm : found_mismatch (printed ++ [EvVerified i errs])
                    = (errs >? 0)).
      { unfold found_mismatch. rewrite existsb_app. cbn [existsb].
        rewrite orb_false_r.
        replace (existsb _ printed) with false; [ reflexivity | ].
        symmetry. clear -Hp. induction printed as [ | x l IH ];
          [ reflexivity | ].
        cbn [forallb] in Hp. apply andb_true_iff in Hp.
        destruct Hp as [Hx Hl]. cbn [existsb]. rewrite (IH Hl).
        destruct x; try discriminate Hx. reflexivity. }
      cbn [app found_mismatch existsb orb]. fold (found_mismatch (printed ++ [EvVerified i errs])).
      rewrite Hfm.
      destruct (errs >? 0); eexists; (split; [ reflexivity | ]);
        cbn [log errors flash_data_32 flag timer_0_1 counting fst snd orb];
        rewrite trace_cons, trace_rev_append, !trace_cons, <- !app_assoc;
        repeat split.
Qed.

Lemma found_mismatch_app l1 l2 :
  found_mismatch (l1 ++ l2) = found_mismatch l1 || found_mismatch l2.
Proof. apply existsb_app. Qed.

Lemma found_start st :
  found_mismatch [EvFlashInit st; EvTimerInit] = false.
Proof. reflexivity. Qed.

Lemma found_success : found_mismatch [EvSuccess] = false.
Proof. reflexivity. Qed.

(** A loop of [main], with the state it leaves. *)
Lemma for_loop_events w sp n : forall i s,
  let r := loop_events w sp n i (flash_data_32 s) in
  exists s',
    for_loop n i (profile_iteration w sp) tt s =
      match snd r with
      | Some _ => Next tt s'
      | None => Return EXIT_FAILURE s'
      end /\
    trace s' = trace s ++ fst r /\
    errors s' = errors s /\
    (forall d', snd r = Some d' -> flash_data_32 s' = d') /\
    flag s' = (if found_mismatch (fst r) then 1 else flag s).
Proof.
  induction n as [ | n IH ]; intros i s r.
  - subst r. exists s. cbn. rewrite app_nil_r.
    repeat split. intros d' H. now injection H.
  - assert (Hstep :
              for_loop (S n) i (profile_iteration w sp) tt s =
              match profile_iteration w sp i tt s with
              | Next a s1 => for_loop n (i + 1) (profile_iteration w sp) a s1
              | Return c s1 => Return c s1
              end) by reflexivity.
    rewrite Hstep. clear Hstep.
    destruct (profile_iteration_state w sp i s)
      as (s1 & Ho & Htr & Herr & Hdata & Hflag & _).
    rewrite Ho. subst r. cbn [loop_events].
    destruct (iteration_fails w sp i (flash_data_32 s)) eqn:Hf.
    + exists s1. cbn [fst snd]. repeat split; try assumption.
      intros d' H. discriminate H.
    + destruct (IH (i + 1) s1) as (s' & Hl & Htr' & Herr' & Hdata' & Hflag').
      rewrite Hdata in Hl, Htr', Hdata', Hflag'.
      destruct (loop_events w sp n (i + 1)
                            (iteration_data w sp i (flash_data_32 s)))
        as [rest res].
      cbn [fst snd] in *. exists s'.
      split; [ exact Hl | ].
      split; [ now rewrite Htr', Htr, app_assoc | ].
      split; [ congruence | ].
      split; [ exact Hdata' | ].
      rewrite Hflag', Hflag, found_mismatch_app.
      destruct (found_mismatch (iteration_events w sp i (flash_data_32 s)));
        destruct (found_mismatch rest); reflexivity.
Qed.

(** The run of [main] is the initialisation followed by the rounds of the
    two loops, each one starting from the buffer the previous one left;
    at the end [errors] is still 0, and [flag] tells whether some
    verification counted a mismatch. *)
Lemma main_body_events w :
  exists s',
    main_body w initial_state = Return (fst (main_events w)) s' /\
    trace s' = snd (main_events w) /\
    errors s' = 0 /\
    flag s' = (if found_mismatch (snd (main_events w)) then 1 else 0).
Proof.
  rewrite main_body_unfold. unfold main_events.
  destruct (is_error (init_status w)) eqn:Ei.
  - eexists. split; [ reflexivity | ]. repeat split.
  - unfold profile_loop.
    change (Z.to_nat (MAX_TEST_BUF_LEN - 1 + 1))
      with (Z.to_nat MAX_TEST_BUF_LEN).
    cbv zeta.
    destruct (for_loop_events w Standard (Z.to_nat MAX_TEST_BUF_LEN) 1
                              (after_init w))
      as (s2 & Ho1 & Htr1 & Herr1 & Hd1 & Hf1).
    change (flash_data_32 (after_init w))
      with (flash_data_32 initial_state) in *.
    assert (Htr0 : trace (after_init w)
                   = [EvFlashInit (init_status w); EvTimerInit])
      by reflexivity.
    rewrite Ho1.
    destruct (loop_events w Standard (Z.to_nat MAX_TEST_BUF_LEN) 1
                          (flash_data_32 initial_state)) as [e1 [d1 | ]];
      cbn [fst snd] in *.
    + destruct (for_loop_events w Quad (Z.to_nat MAX_TEST_BUF_LEN) 1 s2)
        as (s3 & Ho2 & Htr2 & Herr2 & Hd2 & Hf2).
      rewrite (Hd1 d1 eq_refl) in *.
      rewrite Ho2.
      destruct (loop_events w Quad (Z.to_nat MAX_TEST_BUF_LEN) 1 d1)
        as [e2 [d2 | ]]; cbn [fst snd] in *.
      * unfold finish. rewrite Herr2, Herr1. cbn [after_init errors Z.eqb].
        eexists. split; [ reflexivity | ].
        unfold trace at 1. cbn [log errors flag]. rewrite trace_cons.
        fold (trace s3). rewrite Htr2, Htr1, Htr0, <- !app_assoc.
        split; [ reflexivity | ]. split; [ reflexivity | ].
        rewrite Hf2, Hf1. cbn [after_init flag].
        rewrite !found_mismatch_app, found_start, found_success.
        rewrite !orb_false_r. cbn [orb].
        destruct (found_mismatch e1); destruct (found_mismatch e2);
          reflexivity.
      * exists s3. split; [ reflexivity | ].
        rewrite Htr2, Htr1, Htr0, <- !app_assoc.
        split; [ reflexivity | ].
        split; [ rewrite Herr2, Herr1; reflexivity | ].
        rewrite Hf2, Hf1. cbn [after_init flag].
        rewrite !found_mismatch_app, found_start. cbn [orb].
        destruct (found_mismatch e1); destruct (found_mismatch e2);
          reflexivity.
    + exists s2. split; [ reflexivity | ].
      rewrite Htr1, Htr0.
      split; [ reflexivity | ].
      split; [ rewrite Herr1; reflexivity | ].
      rewrite Hf1. cbn [after_init flag].
      rewrite found_mismatch_app, found_start. reflexivity.
Qed.

Lemma main_is_main_events w : main w = main_events w.
Proof.
  unfold main. destruct (main_body_events w) as (s' & Hm & Htr & _).
  rewrite Hm, Htr. now destruct (main_events w).
Qed.

(** *** Error and exit behaviour *)

(** When the initialisation of the flash fails, [main] returns
    [EXIT_FAILURE] at once: the timer is not initialised and no transfer
    is attempted. *)
Theorem init_failure_stops w :
  is_error (init_status w) = true ->
  main w = (EXIT_FAILURE, [EvFlashInit (init_status w)]).
Proof.
  intros Hi. rewrite main_is_main_events. unfold main_events.
  now rewrite Hi.
Qed.

Lemma init_failure_stops_witness :
  main dead_flash_world = (EXIT_FAILURE, [EvFlashInit (FLASH_ERROR 1)]).
Proof. apply (init_failure_stops dead_flash_world). reflexivity. Defined.

(** Whatever the run, the [errors] tested by the exit code is still 0
    when [main] returns, while [flag] holds 1 exactly when some
    verification counted a mismatch. *)
Theorem flag_records_mismatches w :
  exists s',
    main_body w initial_state = Return (fst (main w)) s' /\
    trace s' = snd (main w) /\
    errors s' = 0 /\
    flag s' = (if found_mismatch (snd (main w)) then 1 else 0).
Proof.
  rewrite main_is_main_events. apply main_body_events.
Qed.

Lemma no_failure_banner_app l1 l2 :
  no_failure_banner (l1 ++ l2) = no_failure_banner l1 && no_failure_banner l2.
Proof. apply forallb_app. Qed.

Lemma mismatch_no_banner es :
  forallb is_mismatch es = true -> no_failure_banner es = true.
Proof.
  induction es as [ | x es IH ]; [ reflexivity | ].
  cbn [forallb]. intros H. apply andb_true_iff in H. destruct H as [Hx Hes].
  unfold no_failure_banner. cbn [forallb].
  fold (no_failure_banner es). rewrite (IH Hes).
  destruct x; try discriminate Hx. reflexivity.
Qed.

Lemma iteration_no_banner w sp i d :
  no_failure_banner (iteration_events w sp i d) = true.
Proof.
  pose proof (check_read_printed i (snd (read_result w sp i d))
                                 (flash_original_32 w)) as Hp.
  unfold iteration_events, verification_events.
  destruct (is_error (write_status w sp i));
    [ reflexivity | ].
  destruct (is_error (fst (read_result w sp i d)));
    [ reflexivity | ].
  rewrite !no_failure_banner_app, (mismatch_no_banner _ Hp). reflexivity.
Qed.

Lemma loop_no_banner w sp n : forall i d,
  no_failure_banner (fst (loop_events w sp n i d)) = true.
Proof.
  induction n as [ | n IH ]; intros i d; [ reflexivity | ].
  cbn [loop_events].
  destruct (iteration_fails w sp i d); [ apply iteration_no_banner | ].
  specialize (IH (i + 1) (iteration_data w sp i d)).
  destruct (loop_events w sp n (i + 1) (iteration_data w sp i d))
    as [rest r].
  cbn [fst] in *. now rewrite no_failure_banner_app, iteration_no_banner, IH.
Qed.

(** The exit code of a run is [EXIT_SUCCESS] exactly when no driver call
    of the run returned an error, and [EXIT_FAILURE] otherwise; no run
    ever prints the failure banner with its error count. *)
Theorem exit_code_follows_driver w :
  (fst (main w) = EXIT_SUCCESS <-> forallb ok_event (snd (main w)) = true) /\
  (fst (main w) = EXIT_SUCCESS \/ fst (main w) = EXIT_FAILURE) /\
  no_failure_banner (snd (main w)) = true.
Proof.
  split; [ | split ].
  - destruct (main_run w)
      as [[Hi Hm] | [Hi (evs & _ & [[Hm (Hok & _)] | [Hm Hab]])]];
      rewrite Hm; cbn [fst snd].
    + split; [ discriminate | ].
      cbn [forallb]. unfold ok_event. cbn [driver_status]. rewrite Hi.
      discriminate.
    + split; [ intros _ | reflexivity ].
      rewrite !forallb_app, Hok. cbn [forallb].
      unfold ok_event. cbn [driver_status]. now rewrite Hi.
    + split; [ discriminate | ].
      destruct Hab as (_ & oks & bad & Hevs & _ & Hbad).
      rewrite Hevs, !forallb_app. cbn [forallb].
      rewrite (failed_transfer_not_ok bad Hbad).
      rewrite andb_false_l, !andb_false_r. discriminate.
  - destruct (main_run w)
      as [[_ Hm] | [_ (evs & _ & [[Hm _] | [Hm _]])]];
      rewrite Hm; cbn [fst]; auto.
  - rewrite main_is_main_events. unfold main_events.
    destruct (is_error (init_status w)); [ reflexivity | ].
    cbv zeta.
    pose proof (loop_no_banner w Standard (Z.to_nat MAX_TEST_BUF_LEN) 1
                               (flash_data_32 initial_state)) as H1.
    destruct (loop_events w Standard (Z.to_nat MAX_TEST_BUF_LEN) 1
                          (flash_data_32 initial_state)) as [e1 [d1 | ]];
      cbn [fst snd] in *.
    + pose proof (loop_no_banner w Quad (Z.to_nat MAX_TEST_BUF_LEN) 1 d1)
        as H2.
      destruct (loop_events w Quad (Z.to_nat MAX_TEST_BUF_LEN) 1 d1)
        as [e2 [d2 | ]]; cbn [fst snd] in *;
        rewrite !no_failure_banner_app, H1, H2; reflexivity.
    + rewrite !no_failure_banner_app, H1. reflexivity.
Qed.

(** *** Timing discipline *)

Lemma timing_of_app l1 l2 :
  timing_of l1 = Idle -> timing_of (l1 ++ l2) = timing_of l2.
Proof.
  unfold timing_of. intros H. now rewrite fold_left_app, H.
Qed.

Lemma mismatch_timing es :
  forallb is_mismatch es = true -> timing_of es = Idle.
Proof.
  induction es as [ | x es IH ] using rev_ind; [ reflexivity | ].
  rewrite forallb_app. cbn [forallb]. intros H.
  apply andb_true_iff in H. destruct H as [Hes Hx].
  unfold timing_of in *. rewrite fold_left_app, (IH Hes).
  destruct x; try discriminate Hx. reflexivity.
Qed.

Lemma iteration_timing w sp i d :
  timing_of (iteration_events w sp i d) = Idle.
Proof.
  pose proof (check_read_printed i (snd (read_result w sp i d))
                                 (flash_original_32 w)) as Hp.
  unfold iteration_events, verification_events.
  destruct (is_error (write_status w sp i)); [ reflexivity | ].
  rewrite timing_of_app by reflexivity.
  rewrite timing_of_app by reflexivity.
  destruct (is_error (fst (read_result w sp i d))).
  - reflexivity.
  - rewrite timing_of_app by reflexivity.
    rewrite timing_of_app by reflexivity.
    rewrite timing_of_app by (now apply mismatch_timing).
    reflexivity.
Qed.

Lemma loop_timing w sp n : forall i d,
  timing_of (fst (loop_events w sp n i d)) = Idle.
Proof.
  induction n as [ | n IH ]; intros i d; [ reflexivity | ].
  cbn [loop_events].
  destruct (iteration_fails w sp i d); [ apply iteration_timing | ].
  specialize (IH (i + 1) (iteration_data w sp i d)).
  destruct (loop_events w sp n (i + 1) (iteration_data w sp i d))
    as [rest r].
  cbn [fst] in *. now rewrite timing_of_app by apply iteration_timing.
Qed.

(** In every run, aborted or not: the tick counter is started only when
    it is stopped; between a start and the next stop there is one driver
    write or read and nothing else; no transfer happens outside such a
    window; and the run ends with the counter stopped. *)
Theorem transfers_are_timed w : timing_of (snd (main w)) = Idle.
Proof.
  rewrite main_is_main_events. unfold main_events.
  destruct (is_error (init_status w)); [ reflexivity | ].
  cbv zeta.
  pose proof (loop_timing w Standard (Z.to_nat MAX_TEST_BUF_LEN) 1
                          (flash_data_32 initial_state)) as H1.
  destruct (loop_events w Standard (Z.to_nat MAX_TEST_BUF_LEN) 1
                        (flash_data_32 initial_state)) as [e1 [d1 | ]];
    cbn [fst snd] in *.
  - pose proof (loop_timing w Quad (Z.to_nat MAX_TEST_BUF_LEN) 1 d1) as H2.
    destruct (loop_events w Quad (Z.to_nat MAX_TEST_BUF_LEN) 1 d1)
      as [e2 [d2 | ]]; cbn [fst snd] in *;
      rewrite timing_of_app by reflexivity;
      rewrite timing_of_app by exact H1.
    + rewrite timing_of_app by exact H2. reflexivity.
    + exact H2.
  - rewrite timing_of_app by reflexivity. exact H1.
Qed.

(** *** The schedule of transfers *)

Lemma iteration_transfers w sp i d :
  transfers (iteration_events w sp i d) =
    if is_error (write_status w sp i) then [Write sp i]
    else [Write sp i; Read sp i].
Proof.
  pose proof (check_read_printed i (snd (read_result w sp i d))
                                 (flash_original_32 w)) as Hp.
  unfold iteration_events, verification_events.
  destruct (is_error (write_status w sp i)); [ reflexivity | ].
  destruct (is_error (fst (read_result w sp i d))); [ reflexivity | ].
  rewrite !transfers_app, (mismatch_transfers _ Hp). reflexivity.
Qed.

Lemma loop_transfers_prefix w sp n : forall i d,
  exists rest,
    transfers (fst (loop_events w sp n i d)) ++ rest =
    loop_transfers sp (lengths_from i n) /\
    (forall d', snd (loop_events w sp n i d) = Some d' -> rest = []).
Proof.
  induction n as [ | n IH ]; intros i d.
  - exists []. split; [ reflexivity | auto ].
  - cbn [loop_events lengths_from]. unfold loop_transfers.
    cbn [flat_map]. fold (loop_transfers sp (lengths_from (i + 1) n)).
    unfold iteration_fails.
    destruct (is_error (write_status w sp i)) eqn:Ew; cbn [orb].
    + cbn [fst snd]. rewrite iteration_transfers, Ew.
      eexists. split; [ reflexivity | discriminate ].
    + destruct (is_error (fst (read_result w sp i d))) eqn:Er.
      * cbn [fst snd]. rewrite iteration_transfers, Ew.
        eexists. split; [ reflexivity | discriminate ].
      * destruct (IH (i + 1) (iteration_data w sp i d)) as (rest & Hr & Hd).
        destruct (loop_events w sp n (i + 1) (iteration_data w sp i d))
          as [evs r].
        cbn [fst snd] in *. exists rest.
        rewrite transfers_app, iteration_transfers, Ew, <- app_assoc, Hr.
        split; [ reflexivity | exact Hd ].
Qed.

(** The driver calls of a run, whether it completes or is aborted, are
    always an initial part of the one fixed schedule: every length from 1
    to 1024 written then read at standard speed, then the same at quad
    speed.  No length is skipped, repeated or read before it was
    written. *)
Theorem transfers_follow_schedule w :
  exists rest,
    transfers (snd (main w)) ++ rest = full_loop Standard ++ full_loop Quad.
Proof.
  rewrite main_is_main_events. unfold main_events.
  destruct (is_error (init_status w)); [ eexists; reflexivity | ].
  cbv zeta. unfold full_loop, all_lengths.
  destruct (loop_transfers_prefix w Standard (Z.to_nat MAX_TEST_BUF_LEN) 1
                                  (flash_data_32 initial_state))
    as (r1 & H1 & Hd1).
  destruct (loop_events w Standard (Z.to_nat MAX_TEST_BUF_LEN) 1
                        (flash_data_32 initial_state)) as [e1 [d1 | ]];
    cbn [fst snd] in *.
  - rewrite (Hd1 d1 eq_refl), app_nil_r in H1.
    destruct (loop_transfers_prefix w Quad (Z.to_nat MAX_TEST_BUF_LEN) 1 d1)
      as (r2 & H2 & _).
    destruct (loop_events w Quad (Z.to_nat MAX_TEST_BUF_LEN) 1 d1)
      as [e2 [d2 | ]]; cbn [fst snd] in *; exists r2;
      rewrite !transfers_app, H1; cbn [transfers app];
      rewrite ?app_nil_r, <- ?app_assoc, H2; reflexivity.
  - exists (r1 ++ loop_transfers Quad
                    (lengths_from 1 (Z.to_nat MAX_TEST_BUF_LEN))).
    rewrite !transfers_app. cbn [transfers app].
    now rewrite app_assoc, H1.
Qed.

End RunMore.

(** ** More on the completion signal *)

Module CompletionMore.
Import Completion CompletionFacts CompletionSpec.

Lemma run_app s1 s2 m : run (s1 ++ s2) m = run s2 (run s1 m).
Proof. unfold run. apply fold_left_app. Qed.

Lemma run_cons k s m : run (k :: s) m = run s (step k m).
Proof. reflexivity. Qed.

Lemma reached_signal_state sched : signal_state (run sched armed).
Proof. exact (proj2 (proj2 (proj2 (run_invariant sched)))). Qed.

(** The loop is left only by the [while] test that finds the flag
    set. *)
Lemma exit_needs_flag sched :
  pc (run sched armed) = PcExit -> spi_intr_flag (run sched armed) = 1.
Proof.
  induction sched as [ | k sched IH ] using rev_ind.
  - discriminate.
  - rewrite run_snoc. set (m := run sched armed) in *.
    pose proof (reached_signal_state sched) as Hsig. fold m in Hsig.
    destruct k; cbn [step].
    + unfold main_step.
      destruct (pc m) eqn:Hpc; cbv zeta;
        cbn [goto with_log set_mstatus_mie pc spi_intr_flag];
        try destruct (Z.eqb_spec (spi_intr_flag m) 0) as [Hz | Hnz];
        cbn [goto with_log set_mstatus_mie pc spi_intr_flag];
        try (intros Hx; discriminate Hx);
        intros _;
        first [ apply IH; reflexivity
              | destruct Hsig as [(Hf & _) | (Hf & _)];
                [ contradiction | exact Hf ] ].
    + exact IH.
    + destruct (irq_taken m); [ | exact IH ].
      intros _. reflexivity.
Qed.

(** Once past the loop: the handler ran, exactly once; both interrupt
    sources of the host are disabled (which is why [main] enables them
    again right after the loop); global interrupts are enabled; and the
    main program went through whole turns of the loop before the test
    that ended it. *)
Theorem past_the_loop sched :
  let m := run sched armed in
  pc m = PcExit ->
  spi_intr_flag m = 1 /\
  handler_actions (log m) = handler_run /\
  evt_intr m = false /\ rxwm_intr m = false /\
  mstatus_mie m = true /\
  exists turns,
    main_actions (log m) = flat_map turn turns ++ [ATestWhile 1].
Proof.
  intros m Hpc.
  pose proof (exit_needs_flag sched Hpc) as Hflag. fold m in Hflag.
  destruct (run_invariant sched) as (Hturns & Hmie & _ & Hsig).
  fold m in Hturns, Hmie, Hsig.
  destruct Hsig as [(Hf & _) | (_ & Hh & _ & He & Hr)]; [ lia | ].
  repeat (split; [ assumption | ]).
  split; [ now rewrite Hmie, Hpc | ].
  destruct Hturns as (turns & done & Hlog & Hdone).
  unfold turn_under_way in Hdone. rewrite Hpc in Hdone. subst done.
  now exists turns.
Qed.

Lemma past_the_loop_witness :
  pc (run [HostRaises; Interrupt; MainStep] armed) = PcExit /\
  evt_intr (run [HostRaises; Interrupt; MainStep] armed) = false.
Proof.
  split; [ reflexivity | ].
  apply (past_the_loop [HostRaises; Interrupt; MainStep]).
  reflexivity.
Defined.

(** *** After the signal *)

Lemma suspensions_app l1 l2 :
  suspensions (l1 ++ l2) = (suspensions l1 + suspensions l2)%nat.
Proof. unfold suspensions. now rewrite filter_app, length_app. Qed.

(** One step of a signaled machine: it stays signaled, nobody is
    suspended, the handler does not run, and a statement of the main
    program brings it one statement closer to the exit of the loop. *)
Lemma step_signaled k m :
  signaled m ->
  signaled (step k m) /\
  suspensions (log (step k m)) = suspensions (log m) /\
  signaled_count (log (step k m)) = signaled_count (log m) /\
  statements_to_exit (pc (step k m)) =
    if is_main_step k then pred (statements_to_exit (pc m))
    else statements_to_exit (pc m).
Proof.
  intros (Hf & He & Hr). destruct k; cbn [step is_main_step].
  - unfold main_step, signaled.
    destruct (pc m) eqn:Hpc; cbv zeta;
      cbn [goto with_log set_mstatus_mie pc spi_intr_flag evt_intr
           rxwm_intr log];
      rewrite ?Hf; cbn [Z.eqb];
      cbn [goto with_log set_mstatus_mie pc spi_intr_flag evt_intr
           rxwm_intr log];
      rewrite ?suspensions_app, ?signaled_count_app, ?Hpc;
      cbn; rewrite ?Nat.add_0_r; auto.
  - unfold signaled. cbn. auto.
  - unfold irq_taken. rewrite He, Hr. cbn [orb andb].
    rewrite andb_false_r. cbn [andb]. unfold signaled. auto.
Qed.

Lemma run_signaled sched : forall m,
  signaled m ->
  signaled (run sched m) /\
  suspensions (log (run sched m)) = suspensions (log m) /\
  signaled_count (log (run sched m)) = signaled_count (log m) /\
  statements_to_exit (pc (run sched m)) =
    (statements_to_exit (pc m) - main_steps sched)%nat.
Proof.
  induction sched as [ | k sched IH ]; intros m Hs.
  - cbn. repeat split; try apply Hs. lia.
  - rewrite run_cons.
    destruct (step_signaled k m Hs) as (Hs' & Hsus & Hcnt & Hst).
    destruct (IH (step k m) Hs') as (Hs'' & Hsus' & Hcnt' & Hst').
    split; [ exact Hs'' | ]. split; [ congruence | ]. split; [ congruence | ].
    rewrite Hst', Hst. unfold main_steps. cbn [filter].
    destruct (is_main_step k); cbn [length]; lia.
Qed.

(** No missed wake-up once the flag is set: from any reachable state in
    which the handler has set the flag, and whatever happens in between,
    the main program is past the loop after at most four of its own
    statements; it is not suspended on the way and the handler does not
    run again. *)
Theorem signaled_loop_exits sched sched' :
  let m := run sched armed in
  let m' := run sched' m in
  spi_intr_flag m = 1 ->
  (4 <= main_steps sched')%nat ->
  pc m' = PcExit /\
  suspensions (log m') = suspensions (log m) /\
  signaled_count (log m') = 1%nat.
Proof.
  intros m m' Hflag Hsteps.
  pose proof (reached_signal_state sched) as Hsig. fold m in Hsig.
  destruct Hsig as [(Hf & _) | (_ & _ & Hc & He & Hr)]; [ lia | ].
  assert (Hs : signaled m) by (unfold signaled; auto).
  destruct (run_signaled sched' m Hs) as (_ & Hsus & Hcnt & Hst).
  fold m' in Hsus, Hcnt, Hst.
  split; [ | split; [ exact Hsus | congruence ] ].
  assert (Hle : (statements_to_exit (pc m) <= 4)%nat)
    by (destruct (pc m); cbn; lia).
  assert (Hz : statements_to_exit (pc m') = 0%nat) by lia.
  destruct (pc m'); cbn in Hz; try discriminate Hz. reflexivity.
Qed.

Lemma signaled_loop_exits_witness :
  pc (run [MainStep; HostRaises; MainStep; MainStep; Interrupt; MainStep]
          (run [MainStep; MainStep; HostRaises; MainStep; MainStep;
                MainStep; Interrupt] armed)) = PcExit.
Proof.
  apply (signaled_loop_exits
           [MainStep; MainStep; HostRaises; MainStep; MainStep; MainStep;
            Interrupt]
           [MainStep; HostRaises; MainStep; MainStep; Interrupt; MainStep]).
  - reflexivity.
  - cbn. lia.
Defined.

(** *** Before the signal *)

(** The interrupt is never shut out for long: from any reachable state
    in which the host has raised its condition and the flag is still
    unset, the main program needs at most three statements to be at a
    place where the interrupt is taken, and the handler then sets the
    flag. *)
Theorem raised_interrupt_is_delivered sched :
  let m := run sched armed in
  irq_raised m = true ->
  spi_intr_flag m = 0 ->
  exists k,
    (k <= 3)%nat /\
    irq_taken (run (repeat MainStep k) m) = true /\
    spi_intr_flag (run (repeat MainStep k ++ [Interrupt]) m) = 1.
Proof.
  intros m Hirq Hflag.
  destruct (run_invariant sched) as (_ & Hmie & _ & Hsig).
  fold m in Hmie, Hsig.
  destruct Hsig as [(_ & _ & _ & He & Hr) | (Hf & _)]; [ | lia ].
  destruct m as [p mie f evt rx irq l].
  cbn [pc mstatus_mie spi_intr_flag evt_intr rxwm_intr irq_raised] in *.
  subst f evt rx irq mie.
  destruct p;
    [ exists 0%nat | exists 0%nat | exists 3%nat | exists 2%nat
    | exists 1%nat | exists 0%nat ];
    (split; [ lia | split; reflexivity ]).
Qed.

Lemma raised_interrupt_is_delivered_witness :
  exists k,
    (k <= 3)%nat /\
    irq_taken (run (repeat MainStep k)
                   (run [MainStep; MainStep; MainStep; HostRaises] armed))
      = true /\
    spi_intr_flag
      (run (repeat MainStep k ++ [Interrupt])
           (run [MainStep; MainStep; MainStep; HostRaises] armed)) = 1.
Proof.
  apply (raised_interrupt_is_delivered
           [MainStep; MainStep; MainStep; HostRaises]);
    reflexivity.
Defined.

End CompletionMore.

(** ** The Quad I/O example as a whole: waiting and exit code *)

Module QuadIOWait.
Import CInt QuadIO QuadIOFacts QuadIOMore.
Import Completion CompletionSpec CompletionFacts CompletionMore.

Lemma past_loop_exit m : past_loop m = true <-> pc m = PcExit.
Proof. unfold past_loop. destruct (pc m); split; congruence. Qed.

(** The calls are gone through exactly when every poll returns. *)
Lemma issue_through ready es : forall k,
  snd (issue ready k es) = true <->
  forall j, (k <= j < k + waits es)%nat -> ready j = true.
Proof.
  induction es as [ | c es IH ]; intros k.
  - cbn. split; [ intros _ j Hj; lia | reflexivity ].
  - assert (Hother :
              is_wait c = false ->
              snd (let '(made, through) := issue ready k es in
                   (c :: made, through)) = true <->
              forall j, (k <= j < k + waits (c :: es))%nat -> ready j = true).
    { intros Hc. unfold waits. cbn [filter]. rewrite Hc.
      fold (waits es). rewrite <- (IH k).
      now destruct (issue ready k es). }
    destruct c; try (apply Hother; reflexivity).
    cbn [issue]. unfold waits. cbn [filter is_wait length].
    fold (waits es).
    destruct (ready k) eqn:Hk.
    + specialize (IH (S k)).
      destruct (issue ready (S k) es) as [made through]. cbn [snd] in *.
      rewrite IH. split; intros H j Hj.
      * destruct (Nat.eq_dec j k) as [-> | Hne]; [ exact Hk | ].
        apply H. lia.
      * apply H. lia.
    + cbn [snd]. split; [ discriminate | ].
      intros H. assert (Hx : ready k = true) by (apply H; lia).
      congruence.
Qed.

Lemma main_waits e :
  waits (setup e ++ power_up ++ fast_read_quadio (read_byte_cmd e)) = 7%nat.
Proof. unfold waits, setup. destruct (USE_SPI_FLASH e); reflexivity. Qed.

Lemma main_polls e :
  snd (issue (host_ready e) 0
             (setup e ++ power_up ++ fast_read_quadio (read_byte_cmd e)))
    = true <->
  forall k, (k < 7)%nat -> host_ready e k = true.
Proof.
  rewrite issue_through, main_waits.
  split; intros H k Hk; apply H; lia.
Qed.

(** The example returns exactly when it leaves at once (memory-mapped
    flash on the FPGA build) or every readiness poll returns and the
    wait loop is left; it then exits with [EXIT_SUCCESS] when each of
    the eight words taken from the RX FIFO equals the reference word
    (or it left at once), and with [EXIT_FAILURE] otherwise. *)
Theorem quadio_exit_code e :
  let early := spimemio e && USE_SPI_FLASH e in
  let polls_return := forall k, (k < 7)%nat -> host_ready e k = true in
  let loop_left := pc (run (schedule e) armed) = PcExit in
  let same := forall j, 0 <= j < 8 ->
                        word_at (rx_fifo e) j = word_at (flash_original e) j in
  (fst (main e) = None <-> early = false /\ ~ (polls_return /\ loop_left)) /\
  (fst (main e) = Some EXIT_SUCCESS <->
   early = true \/ polls_return /\ loop_left /\ same) /\
  (fst (main e) = Some EXIT_FAILURE <->
   early = false /\ polls_return /\ loop_left /\ ~ same) /\
  (fst (main e) = None \/ fst (main e) = Some EXIT_SUCCESS \/
   fst (main e) = Some EXIT_FAILURE).
Proof.
  intros early polls_return loop_left same.
  pose proof (main_polls e) as Hready. fold polls_return in Hready.
  pose proof (past_loop_exit (run (schedule e) armed)) as Hleft.
  fold loop_left in Hleft.
  pose proof (count_errors_zero e) as Hsame. fold same in Hsame.
  unfold main. fold early.
  clearbody early polls_return loop_left same.
  destruct (issue _ _ _) as [calls through]. cbn [snd] in Hready.
  unfold EXIT_SUCCESS, EXIT_FAILURE.
  destruct early; [ cbn [fst]; intuition (try discriminate; congruence) | ].
  destruct through; cbn [negb fst];
    [ | intuition (try discriminate; congruence) ].
  destruct (past_loop _); cbn [negb fst];
    [ | intuition (try discriminate; congruence) ].
  destruct (Z.eqb_spec (count_errors (flash_data e) (flash_original e)) 0)
    as [Hz | Hnz]; cbn [fst];
    intuition (try discriminate; congruence).
Qed.

(** *** The wait loop needs the host *)

Lemma main_step_keeps m :
  irq_raised (main_step m) = irq_raised m /\
  spi_intr_flag (main_step m) = spi_intr_flag m.
Proof.
  unfold main_step.
  destruct (pc m); cbv zeta;
    cbn [goto with_log set_mstatus_mie pc spi_intr_flag irq_raised];
    try destruct (spi_intr_flag m =? 0); split; reflexivity.
Qed.

(** As long as the host does not raise its condition, the signal stays
    as it was armed. *)
Lemma silent_host_keeps_armed sched :
  host_raises sched = false ->
  irq_raised (run sched armed) = false /\
  spi_intr_flag (run sched armed) = 0.
Proof.
  induction sched as [ | k sched IH ] using rev_ind; intros Hs.
  - split; reflexivity.
  - unfold host_raises in Hs. rewrite existsb_app in Hs.
    apply orb_false_iff in Hs. destruct Hs as [Hs Hk].
    destruct (IH Hs) as [Hirq Hflag].
    rewrite run_snoc. destruct k; cbn [step].
    + destruct (main_step_keeps (run sched armed)) as [-> ->]. auto.
    + discriminate Hk.
    + unfold irq_taken. rewrite Hirq. cbn [andb]. auto.
Qed.

(** If the host never raises its interrupt condition the example does
    not return, however long the schedule and whatever else it holds:
    the flag is never set, the wait loop is never left and no word is
    taken from the RX FIFO. *)
Theorem quadio_waits_for_the_host e :
  spimemio e && USE_SPI_FLASH e = false ->
  host_raises (schedule e) = false ->
  fst (main e) = None /\
  spi_intr_flag (run (schedule e) armed) = 0 /\
  forall w, ~ In (SpiReadWord w) (snd (main e)).
Proof.
  intros Hearly Hsilent.
  destruct (silent_host_keeps_armed _ Hsilent) as [_ Hflag].
  assert (Hpast : past_loop (run (schedule e) armed) = false).
  { destruct (past_loop _) eqn:Hp; [ | reflexivity ].
    apply past_loop_exit, exit_needs_flag in Hp. lia. }
  assert (Hcalls : forall w c, In c (setup e ++ power_up ++
                                  fast_read_quadio (read_byte_cmd e)) ->
                             c <> SpiReadWord w).
  { intros w c Hin ->. unfold setup, power_up, fast_read_quadio in Hin.
    destruct (USE_SPI_FLASH e); cbn [app In] in Hin;
      repeat (destruct Hin as [Hin | Hin]; try discriminate Hin);
      contradiction. }
  pose proof (issue_made (host_ready e)
                (setup e ++ power_up ++ fast_read_quadio (read_byte_cmd e))
                0) as Hmade.
  unfold main. rewrite Hearly, Hpast.
  destruct (issue _ _ _) as [calls through]. cbn [fst] in Hmade.
  split; [ now destruct through | ].
  split; [ exact Hflag | ].
  intros w Hin.
  destruct through; cbn [negb snd] in Hin.
  - apply in_app_or in Hin. destruct Hin as [Hin | [Hin | []]].
    + now apply (Hcalls w _ (Hmade _ Hin)).
    + discriminate Hin.
  - now apply (Hcalls w _ (Hmade _ Hin)).
Qed.

(** The main program goes round the loop twice and the core could take
    an interrupt, but the host stays silent. *)
Lemma quadio_waits_for_the_host_witness :
  fst (main (sim_run [MainStep; MainStep; MainStep; MainStep; Interrupt;
                      MainStep; MainStep; MainStep; MainStep; MainStep;
                      MainStep; Interrupt; MainStep])) = None.
Proof.
  apply (quadio_waits_for_the_host
           (sim_run [MainStep; MainStep; MainStep; MainStep; Interrupt;
                     MainStep; MainStep; MainStep; MainStep; MainStep;
                     MainStep; Interrupt; MainStep]));
    reflexivity.
Defined.

(** *** The example returns once the signal is given *)

(** Once the handler has set the flag, at most four more statements of
    the main program take it out of the wait loop, whatever is
    interleaved with them; if moreover every readiness poll returned,
    the example returns, with one of its two exit codes. *)
Theorem quadio_returns_once_signaled e s1 s2 :
  (forall k, (k < 7)%nat -> host_ready e k = true) ->
  schedule e = s1 ++ s2 ->
  spi_intr_flag (run s1 armed) = 1 ->
  (4 <= main_steps s2)%nat ->
  fst (main e) = Some EXIT_SUCCESS \/ fst (main e) = Some EXIT_FAILURE.
Proof.
  intros Hready Hsched Hflag Hsteps.
  assert (Hexit : past_loop (run (schedule e) armed) = true).
  { apply past_loop_exit. rewrite Hsched, run_app.
    set (m := run s1 armed) in *.
    pose proof (reached_signal_state s1) as Hsig. fold m in Hsig.
    destruct Hsig as [(Hf & _) | (_ & _ & _ & He & Hr)]; [ lia | ].
    assert (Hs : signaled m) by (unfold signaled; auto).
    destruct (run_signaled s2 m Hs) as (_ & _ & _ & Hst).
    assert (Hle : (statements_to_exit (pc m) <= 4)%nat)
      by (destruct (pc m); cbn; lia).
    assert (Hz : statements_to_exit (pc (run s2 m)) = 0%nat) by lia.
    destruct (pc (run s2 m)); cbn in Hz; try discriminate Hz. reflexivity. }
  apply main_polls in Hready.
  unfold main. rewrite Hexit.
  destruct (spimemio e && USE_SPI_FLASH e); [ now left | ].
  destruct (issue _ _ _) as [calls through]. cbn [snd] in Hready.
  rewrite Hready. cbn [negb].
  destruct (count_errors (flash_data e) (flash_original e) =? 0);
    [ left | right ]; reflexivity.
Qed.

(** The host raises its condition while the core is about to suspend;
    the interrupt is taken as soon as global interrupts are enabled
    again, and the next [while] test ends the loop. *)
Lemma quadio_returns_once_signaled_witness :
  fst (main (sim_run ([MainStep; MainStep; HostRaises; MainStep; MainStep;
                       MainStep; Interrupt]
                      ++ [MainStep; MainStep; MainStep; MainStep])))
    = Some EXIT_SUCCESS \/
  fst (main (sim_run ([MainStep; MainStep; HostRaises; MainStep; MainStep;
                       MainStep; Interrupt]
                      ++ [MainStep; MainStep; MainStep; MainStep])))
    = Some EXIT_FAILURE.
Proof.
  apply (quadio_returns_once_signaled
           (sim_run ([MainStep; MainStep; HostRaises; MainStep; MainStep;
                      MainStep; Interrupt]
                     ++ [MainStep; MainStep; MainStep; MainStep]))
           [MainStep; MainStep; HostRaises; MainStep; MainStep; MainStep;
            Interrupt]
           [MainStep; MainStep; MainStep; MainStep]).
  - intros k _. reflexivity.
  - reflexivity.
  - reflexivity.
  - cbn. lia.
Defined.

End QuadIOWait.
